(** * Skills loader: frontmatter parsing, dependency resolution, bundle assembly

    A shallow embedding of [bin/load-skills.py].

    - Python [str] values are modelled as [string], read as a sequence of
      characters with code points 0..255; the character classes of the two
      patterns and of [str.strip] are given on that range.
    - Python sets are [gset string]; the frontmatter [dict] is a
      [gmap string _] (the order of its keys is not kept).
    - The skills directory is a finite map from a skill name to the text
      that reading [SKILLS_DIR / f"{name}.md"] returns (its line ends
      already translated); a name is bound exactly when that file exists,
      and the directory does not change during a run.  The map is indexed
      by names, not by files: two spellings of one file are two bound
      names, and it holds the finitely many names that a run can ask for,
      those of the configured list and of the [requires] entries.
    - Paths follow [pathlib] on a POSIX system.
    - The two mutable sets that [resolve_skill_dependencies] shares with its
      recursive calls are passed explicitly as a state; what is printed on
      stderr is collected in a list of diagnostics, and [sys.exit] is an
      outcome of its own.
    - [json.load] is not modelled: a project gives its result, which is a
      decoding error, a value that is not an object, or an object whose
      [skills] field is absent or a list of strings.
    - An exception that nothing catches is an outcome of its own.  The file
      system is taken to answer every lookup: a name that it rejects and a
      file that cannot be read or decoded are outside the model.
    - The recursion of the resolver is bounded by a fuel that is proved
      never to run out; the interpreter's own recursion limit is outside
      the model. *)

From Stdlib Require Import Ascii String.
From stdpp Require Import gmap strings list fin_maps relations.

Open Scope string_scope.
Open Scope list_scope.
Open Scope stdpp_scope.

(** ** Characters and string helpers *)

Module Str.

Definition nl : ascii := "010"%char.

Definition cr : ascii := "013"%char.

Definition code (c : ascii) : N := N_of_ascii c.

Definition in_range (lo hi : N) (c : ascii) : bool :=
  ((lo <=? code c) && (code c <=? hi))%N.

(** What [str.isspace] and the pattern [\s] accept below U+0100. *)
Definition is_space (c : ascii) : bool :=
  in_range 9 13 c || in_range 28 32 c
  || (code c =? 133)%N || (code c =? 160)%N.

(** What the pattern [\w] accepts below U+0100. *)
Definition is_word (c : ascii) : bool :=
  in_range 48 57 c || in_range 65 90 c || in_range 97 122 c
  || (code c =? 95)%N
  || (code c =? 170)%N || in_range 178 179 c || (code c =? 181)%N
  || in_range 185 186 c || in_range 188 190 c
  || in_range 192 214 c || in_range 216 246 c || in_range 248 255 c.

(** The two quote characters (codes 34 and 39) that line 94 strips from
    each item. *)
Definition is_quote (c : ascii) : bool :=
  (code c =? 34)%N || (code c =? 39)%N.

Fixpoint lstrip (p : ascii -> bool) (s : string) : string :=
  match s with
  | EmptyString => EmptyString
  | String c s' => if p c then lstrip p s' else s
  end.

Fixpoint rstrip (p : ascii -> bool) (s : string) : string :=
  match s with
  | EmptyString => EmptyString
  | String c s' =>
      match rstrip p s' with
      | EmptyString => if p c then EmptyString else String c EmptyString
      | r => String c r
      end
  end.

(** [s.strip()] is [strip is_space s]; [s.strip(chars)] is [strip p s]
    with [p] the membership test of [chars]. *)
Definition strip (p : ascii -> bool) (s : string) : string :=
  rstrip p (lstrip p s).

(** [strip_prefix pre s] is [Some rest] when [s = pre ++ rest]. *)
Fixpoint strip_prefix (pre s : string) : option string :=
  match pre, s with
  | EmptyString, _ => Some s
  | String a pre', String b s' =>
      if decide (a = b) then strip_prefix pre' s' else None
  | String _ _, EmptyString => None
  end.

(** [s.split(sep)] for a one-character separator: never the empty list. *)
Fixpoint split (sep : ascii) (s : string) : list string :=
  match s with
  | EmptyString => [EmptyString]
  | String c s' =>
      if decide (c = sep) then EmptyString :: split sep s'
      else match split sep s' with
           | [] => [String c EmptyString]
           | h :: t => String c h :: t
           end
  end.

(** [sep.join(parts)]. *)
Fixpoint join (sep : string) (parts : list string) : string :=
  match parts with
  | [] => EmptyString
  | [p] => p
  | p :: rest => p +:+ sep +:+ join sep rest
  end.

(** The leftmost occurrence of [sep] in [s]: the text before it and the
    text after it. *)
Fixpoint cut (sep s : string) : option (string * string) :=
  match strip_prefix sep s with
  | Some rest => Some (EmptyString, rest)
  | None =>
      match s with
      | EmptyString => None
      | String c s' =>
          match cut sep s' with
          | Some (before, after) => Some (String c before, after)
          | None => None
          end
      end
  end.

(** The longest prefix whose characters satisfy [p], and what follows. *)
Fixpoint span (p : ascii -> bool) (s : string) : string * string :=
  match s with
  | EmptyString => (EmptyString, EmptyString)
  | String c s' =>
      if p c then let '(a, b) := span p s' in (String c a, b)
      else (EmptyString, s)
  end.

Fixpoint last (s : string) : option ascii :=
  match s with
  | EmptyString => None
  | String c EmptyString => Some c
  | String _ s' => last s'
  end.

(** [s[:-1]]. *)
Fixpoint drop_last (s : string) : string :=
  match s with
  | EmptyString => EmptyString
  | String c EmptyString => EmptyString
  | String c s' => String c (drop_last s')
  end.

(** [s[1:-1]]. *)
Definition inner (s : string) : string :=
  match s with
  | EmptyString => EmptyString
  | String _ s' => drop_last s'
  end.

Definition startswith (c : ascii) (s : string) : bool :=
  match s with
  | String a _ => bool_decide (a = c)
  | EmptyString => false
  end.

Definition endswith (c : ascii) (s : string) : bool :=
  match last s with
  | Some a => bool_decide (a = c)
  | None => false
  end.

(** No line break occurs in [s]. *)
Fixpoint no_newline (s : string) : bool :=
  match s with
  | EmptyString => true
  | String c s' => if decide (c = nl) then false else no_newline s'
  end.

(** What reading a file opened in text mode makes of its line ends: with
    universal newlines, the default of [open], a carriage return followed
    by a line feed and a carriage return alone both come out as one line
    feed. *)
Fixpoint universal_newlines (s : string) : string :=
  match s with
  | EmptyString => EmptyString
  | String c s' =>
      if decide (c = cr) then
        String nl
          match s' with
          | String c' s'' =>
              if decide (c' = nl) then universal_newlines s''
              else universal_newlines s'
          | EmptyString => EmptyString
          end
      else String c (universal_newlines s')
  end.

End Str.

(** ** Paths *)

(** [pathlib] on a POSIX system, as far as the loader uses it.  A path is
    its root (none, one slash, or exactly two) and its components. *)
Module Path.

Record t := Make { root : string; parts : list string }.

(** [posixpath.splitroot]: the root and what follows it. *)
Definition splitroot (p : string) : string * string :=
  match p with
  | String c1 r1 =>
      if decide (c1 = "/"%char) then
        match r1 with
        | String c2 r2 =>
            if decide (c2 = "/"%char) then
              if Str.startswith "/"%char r2 then ("/", r1) else ("//", r2)
            else ("/", r1)
        | EmptyString => ("/", r1)
        end
      else (EmptyString, p)
  | EmptyString => (EmptyString, p)
  end.

(** [Path(s)]: empty components and single dots are dropped. *)
Definition of_string (s : string) : t :=
  let '(root, rel) := splitroot s in
  Make root (filter (fun x => x ≠ EmptyString ∧ x ≠ ".")
                    (Str.split "/"%char rel)).

(** [p / key]: an absolute [key] replaces [p]. *)
Definition truediv (p : t) (key : string) : t :=
  let q := of_string key in
  if decide (root q = EmptyString) then Make (root p) (parts p ++ parts q)
  else q.

(** [str(p)]: the empty path is written as a dot. *)
Definition str (p : t) : string :=
  match root p +:+ Str.join "/" (parts p) with
  | EmptyString => "."
  | s => s
  end.

End Path.

(** ** Frontmatter *)

(** A frontmatter value is a plain string or, for a bracketed value, a list
    of strings. *)
Inductive fm_value :=
| FStr (s : string)
| FList (items : list string).

#[global] Instance fm_value_eq_dec : EqDecision fm_value.
Proof. solve_decision. Defined.

Abbreviation frontmatter := (gmap string fm_value).

(** The opening line and the closing line of a header, as the pattern
    [^---\n([\s\S]*?)\n---\n] spells them. *)
Definition fm_open : string := 
  String "-"%char (String "-"%char (String "-"%char (String Str.nl EmptyString))).
Definition fm_close : string := String Str.nl fm_open.

(** [re.match(r'^(\w+):\s*(.+)$', line)] on a line without a line break:
    the two groups.  The key is the longest run of word characters, which
    must be followed by a colon and at least one more character; [\s*]
    takes all the whitespace after the colon unless that leaves nothing
    for [.+], in which case it gives the last character back. *)
Definition match_key_value (line : string) : option (string * string) :=
  match Str.span Str.is_word line with
  | (String k key, String ":"%char after) =>
      match Str.lstrip Str.is_space after with
      | String c rest => Some (String k key, String c rest)
      | EmptyString =>
          match Str.last after with
          | Some c => Some (String k key, String c EmptyString)
          | None => None
          end
      end
  | _ => None
  end.

(** Lines 89-96: the value is stripped; a value that starts with an opening
    bracket and ends with a closing one becomes the list of its
    comma-separated items, each stripped of whitespace and then of quotes. *)
Definition parse_value (group2 : string) : fm_value :=
  let value := Str.strip Str.is_space group2 in
  if Str.startswith "["%char value && Str.endswith "]"%char value then
    FList ((fun s => Str.strip Str.is_quote (Str.strip Str.is_space s))
             <$> Str.split ","%char (Str.inner value))
  else FStr value.

(** One iteration of the loop of lines 85-98. *)
Definition parse_line (fm : frontmatter) (line : string) : frontmatter :=
  match match_key_value line with
  | Some (key, group2) => <[key := parse_value group2]> fm
  | None => fm
  end.

Definition parse_lines (lines : list string) : frontmatter :=
  foldl parse_line ∅ lines.

(** [parse_skill_frontmatter]: the header is recognised when the text starts
    with the opening line and a closing line follows; the non-greedy group
    stops at the leftmost one. *)
Definition parse_skill_frontmatter (content : string)
  : option frontmatter * string :=
  match Str.strip_prefix fm_open content with
  | None => (None, content)
  | Some rest =>
      match Str.cut fm_close rest with
      | None => (None, content)
      | Some (frontmatter_text, content_without_frontmatter) =>
          (Some (parse_lines (Str.split Str.nl frontmatter_text)),
           content_without_frontmatter)
      end
  end.

(** ** Dependency resolver *)

(** The skills directory: a skill name is bound to the text of its document
    when [SKILLS_DIR / f"{name}.md"] exists. *)
Abbreviation store := (gmap string string).

(** Messages written to stderr. *)
Inductive diag :=
| DiagConfigError (err : string)
| DiagNoConfig
| DiagNoActive
| DiagCircular (skill_name : string)
| DiagLoaded (names : list string)
| DiagMissing (names : list string).

(** The two sets that one call tree of the resolver shares. *)
Record rstate := RState { resolved : gset string; resolving : gset string }.

(** What a call without the two optional arguments starts from
    (lines 110-113). *)
Definition fresh : rstate := RState ∅ ∅.

(** Lines 132-137: the names to resolve first; a scalar [requires] counts as
    a one-element list. *)
Definition requires_of_frontmatter (fm : option frontmatter) : list string :=
  match fm with
  | Some m =>
      match m !! "requires" with
      | Some (FList items) => items
      | Some (FStr s) => [s]
      | None => []
      end
  | None => []
  end.

Definition requires_of (content : string) : list string :=
  requires_of_frontmatter (parse_skill_frontmatter content).1.

Abbreviation answer := (option (list string * rstate * list diag)).

(** Lines 139-140: the loop over [requires], around any resolver [rec]. *)
Fixpoint resolve_each (rec : string -> rstate -> answer)
    (requires : list string) (st : rstate) : answer :=
  match requires with
  | [] => Some ([], st, [])
  | dep :: rest =>
      match rec dep st with
      | None => None
      | Some (out1, st1, ev1) =>
          match resolve_each rec rest st1 with
          | None => None
          | Some (out2, st2, ev2) => Some (out1 ++ out2, st2, ev1 ++ ev2)
          end
      end
  end.

(** [resolve_skill_dependencies], with the recursion depth bounded by
    [fuel]; [None] means the bound was hit. *)
Fixpoint resolve_skill_dependencies (skills_dir : store) (fuel : nat)
    (skill_name : string) (all_skills : list string) (st : rstate)
    {struct fuel} : answer :=
  match fuel with
  | O => None
  | S fuel' =>
      if decide (skill_name ∈ resolved st) then Some ([], st, [])
      else if decide (skill_name ∈ resolving st) then
        Some ([], st, [DiagCircular skill_name])
      else
        match skills_dir !! skill_name with
        | None => Some ([], st, [])
        | Some content =>
            let st1 := RState (resolved st) ({[skill_name]} ∪ resolving st) in
            match resolve_each
                    (fun dep s =>
                       resolve_skill_dependencies skills_dir fuel' dep all_skills s)
                    (requires_of content) st1 with
            | None => None
            | Some (dependencies, st2, ev) =>
                Some (dependencies ++ [skill_name],
                      RState ({[skill_name]} ∪ resolved st2)
                             (resolving st2 ∖ {[skill_name]}),
                      ev)
            end
        end
  end.

(** A recursion depth that is never reached: one more than the number of
    documents. *)
Definition depth_bound (skills_dir : store) : nat := S (size skills_dir).
Arguments depth_bound : simpl never.

(** ** Bundle assembler *)

(** Lines 181-184: merge one expansion into the global order. *)
Fixpoint merge_seen (dependencies : list string)
    (acc : list string * gset string) : list string * gset string :=
  match dependencies with
  | [] => acc
  | dep :: rest =>
      if decide (dep ∈ acc.2) then merge_seen rest acc
      else merge_seen rest (acc.1 ++ [dep], {[dep]} ∪ acc.2)
  end.

(** Lines 176-184: every configured skill is expanded by a call that gives
    the resolver no sets, so each expansion starts from [fresh]. *)
Fixpoint resolve_all (skills_dir : store) (todo all_skills : list string)
    (acc : list string * gset string)
  : option (list string * gset string * list diag) :=
  match todo with
  | [] => Some (acc, [])
  | skill :: rest =>
      match resolve_skill_dependencies skills_dir (depth_bound skills_dir)
              skill all_skills fresh with
      | None => None
      | Some (dependencies, _, ev1) =>
          match resolve_all skills_dir rest all_skills
                  (merge_seen dependencies acc) with
          | None => None
          | Some (acc', ev2) => Some (acc', ev1 ++ ev2)
          end
      end
  end.

(** [all_skills_ordered] after the loop of lines 179-184. *)
Definition all_skills_ordered (skills_dir : store) (skills : list string)
  : option (list string * list diag) :=
  match resolve_all skills_dir skills skills ([], ∅) with
  | Some ((ordered, _), ev) => Some (ordered, ev)
  | None => None
  end.

(** The sub-sequences the assembler receives, one per configured skill. *)
Fixpoint expansions (skills_dir : store) (todo all_skills : list string)
  : option (list (list string)) :=
  match todo with
  | [] => Some []
  | skill :: rest =>
      match resolve_skill_dependencies skills_dir (depth_bound skills_dir)
              skill all_skills fresh with
      | None => None
      | Some (dependencies, _, _) =>
          match expansions skills_dir rest all_skills with
          | None => None
          | Some outs => Some (dependencies :: outs)
          end
      end
  end.

(** ** Project configuration *)

(** What [json.load] makes of [.claude-skills.json]: a decoding error; an
    object, of which only the [skills] field (absent, or a list of strings)
    is looked at while the rest is echoed as it is; or a value that is not
    an object (a list, a string, a number, [true], [false] or [null]). *)
Inductive json_load :=
| JSONDecodeError (err : string)
| JsonObject (skills_field : option (list string)) (raw : string)
| JsonValue (raw : string).

(** A project directory: its [.claude-skills.json] and its [.claude-skills],
    when they exist; the first as [json.load] reads it, the second as the
    characters stored in it, before the line ends are translated. *)
Record project := Project {
  json_file : option json_load;
  text_file : option string
}.

Inductive config_format := FormatJson | FormatText.

Record config := Config {
  cfg_skills : list string;
  cfg_format : config_format;
  cfg_config : option string
}.

(** The exceptions that the loader raises and does not catch. *)
Inductive exn :=
| AttributeError.

(** A call returns a value, leaves through [sys.exit], or raises an
    exception that goes past its caller. *)
Inductive outcome (A : Type) :=
| Exit (code : Z)
| Return (value : A)
| Raise (e : exn).
Arguments Exit {A} code.
Arguments Return {A} value.
Arguments Raise {A} e.

(** Lines 55-60, on the characters of the file: [open] reads it with
    universal newlines, [readlines] cuts the text at the line feeds, and
    the stripped lines that are neither empty nor comments are kept. *)
Definition text_skills (text : string) : list string :=
  filter (fun line => line ≠ EmptyString ∧ Str.startswith "#"%char line = false)
         (Str.strip Str.is_space
            <$> Str.split Str.nl (Str.universal_newlines text)).

(** Lines 38-68.  Only [json.JSONDecodeError] is caught; a value without a
    [get] method makes line 44 raise [AttributeError]. *)
Definition load_skills_config (p : project)
  : outcome (option config) * list diag :=
  match json_file p with
  | Some (JSONDecodeError err) => (Exit 1, [DiagConfigError err])
  | Some (JsonObject skills_field raw) =>
      (Return (Some (Config (default [] skills_field) FormatJson (Some raw))), [])
  | Some (JsonValue raw) => (Raise AttributeError, [])
  | None =>
      match text_file p with
      | Some text => (Return (Some (Config (text_skills text) FormatText None)), [])
      | None => (Return None, [])
      end
  end.

(** ** Loading and output *)

Record options := Options { opt_json : bool; opt_silent : bool }.

Record skill_info := SkillInfo {
  info_name : string;
  info_path : string;
  info_frontmatter : option frontmatter;
  info_size : nat
}.

(** The four lists of lines 187-190. *)
Record loading := Loading {
  loaded_skills : list string;
  missing_skills : list string;
  skills_content : list string;
  skills_metadata : list skill_info
}.

Record report := Report {
  rep_project : string;
  rep_configuration : config;
  rep_loadedSkills : list string;
  rep_missingSkills : list string;
  rep_skills : list skill_info
}.

(** What [load_skills_for_project] returns: plain text, or the serialisation
    of an error object or of a report. *)
Inductive result :=
| RText (text : string)
| RJsonError (message : string)
| RJsonReport (r : report).

Definition separator : string :=
  String Str.nl (String Str.nl fm_open) +:+ String Str.nl EmptyString.

Section Assembler.

(** The text of [SKILLS_DIR], the documents below it and the path of the
    project. *)
Variable SKILLS_DIR : string.
Variable skills_dir : store.
Variable project_path : string.

(** [str(SKILLS_DIR / f"{skill_name}.md")], lines 193 and 207. *)
Definition skill_path (skill_name : string) : string :=
  Path.str (Path.truediv (Path.of_string SKILLS_DIR) (skill_name +:+ ".md")).

(** Lines 193-212: one iteration of the loading loop. *)
Definition load_skill (o : options) (acc : loading) (skill_name : string)
  : loading :=
  match skills_dir !! skill_name with
  | Some raw_content =>
      let '(fm, content) := parse_skill_frontmatter raw_content in
      Loading (loaded_skills acc ++ [skill_name])
              (missing_skills acc)
              (skills_content acc ++ [content])
              (if opt_json o then
                 skills_metadata acc ++
                   [SkillInfo skill_name (skill_path skill_name) fm
                              (String.length raw_content)]
               else skills_metadata acc)
  | None =>
      Loading (loaded_skills acc) (missing_skills acc ++ [skill_name])
              (skills_content acc) (skills_metadata acc)
  end.

Definition load_skills (o : options) (order : list string) : loading :=
  foldl (load_skill o) (Loading [] [] [] []) order.

(** Lines 215-219. *)
Definition report_diags (o : options) (l : loading) : list diag :=
  if opt_silent o then []
  else (if bool_decide (loaded_skills l = []) then []
        else [DiagLoaded (loaded_skills l)])
       ++ (if bool_decide (missing_skills l = []) then []
           else [DiagMissing (missing_skills l)]).

Definition quiet (o : options) (d : diag) : list diag :=
  if opt_silent o then [] else [d].

(** [load_skills_for_project]: the outcome and everything written to
    stderr; [None] only if the resolver hit its depth bound.  The report
    names the project by [str(Path(project_path))]. *)
Definition load_skills_for_project (p : project) (o : options)
  : option (outcome result * list diag) :=
  match load_skills_config p with
  | (Exit code, ev) => Some (Exit code, ev)
  | (Raise e, ev) => Some (Raise e, ev)
  | (Return None, ev) =>
      Some (Return (if opt_json o then RJsonError "No skills configuration found"
                    else RText EmptyString),
            ev ++ quiet o DiagNoConfig)
  | (Return (Some cfg), ev) =>
      match cfg_skills cfg with
      | [] =>
          Some (Return (if opt_json o then RJsonError "No active skills"
                        else RText EmptyString),
                ev ++ quiet o DiagNoActive)
      | _ :: _ =>
          match all_skills_ordered skills_dir (cfg_skills cfg) with
          | None => None
          | Some (order, ev_resolve) =>
              let l := load_skills o order in
              Some (Return
                      (if opt_json o then
                         RJsonReport
                           (Report (Path.str (Path.of_string project_path))
                                   cfg (loaded_skills l)
                                   (missing_skills l) (skills_metadata l))
                       else RText (Str.join separator (skills_content l))),
                    ev ++ ev_resolve ++ report_diags o l)
          end
      end
  end.

End Assembler.

(** ** The requirement graph *)

Definition skill_requires (skills_dir : store) (skill_name : string)
  : list string :=
  match skills_dir !! skill_name with
  | Some content => requires_of content
  | None => []
  end.

(** [requires skills_dir a b]: the document of [a] names [b] in its
    [requires] entry. *)
Definition requires (skills_dir : store) : relation string :=
  fun a b => b ∈ skill_requires skills_dir a.

Definition acyclic (skills_dir : store) : Prop :=
  ∀ a, ¬ tc (requires skills_dir) a a.

(** No skill that can be reached from the configured list requires itself
    through a chain of documents. *)
Definition acyclic_from (skills_dir : store) (skills : list string) : Prop :=
  ∀ top a, top ∈ skills → rtc (requires skills_dir) top a →
           ¬ tc (requires skills_dir) a a.

(** [b] stands somewhere before an occurrence of [a]. *)
Definition before (l : list string) (b a : string) : Prop :=
  ∃ l1 l2, l = l1 ++ a :: l2 ∧ b ∈ l1.

(** The first occurrences in [l] of the names outside [seen], in order. *)
Fixpoint firsts (seen : gset string) (l : list string) : list string :=
  match l with
  | [] => []
  | x :: rest =>
      if decide (x ∈ seen) then firsts seen rest
      else x :: firsts ({[x]} ∪ seen) rest
  end.

(** What a call (or a loop of calls) of the resolver on [roots] from state
    [st] guarantees when it returns [out], leaves state [st'] and has
    printed [ev]. *)
Definition call_ok (skills_dir : store) (roots : list string) (st : rstate)
    (out : list string) (st' : rstate) (ev : list diag) : Prop :=
  resolving st' = resolving st
  ∧ resolved st' = resolved st ∪ list_to_set out
  ∧ NoDup out
  ∧ (∀ x, x ∈ out →
       (x ∉ resolved st) ∧ (x ∉ resolving st) ∧ x ∈ dom skills_dir
       ∧ ∃ r, r ∈ roots ∧ rtc (requires skills_dir) r x)
  ∧ (∀ r, r ∈ roots → r ∈ dom skills_dir →
       r ∈ resolved st' ∨ (r ∈ resolving st ∧ DiagCircular r ∈ ev))
  ∧ (∀ l1 x l2 d, out = l1 ++ x :: l2 → requires skills_dir x d →
       d ∈ dom skills_dir →
       d ∈ resolved st ∨ d ∈ l1
       ∨ ((d ∈ resolving st ∨ (d ∈ x :: l2 ∧ rtc (requires skills_dir) d x))
          ∧ DiagCircular d ∈ ev)).

(** Following the words of the specification (sections 3 and 4.3), not the
    source: one pair of sets, empty at first, is handed from each top-level
    expansion to the next. *)
Fixpoint expansions_shared (skills_dir : store) (todo all_skills : list string)
    (st : rstate) : option (list (list string)) :=
  match todo with
  | [] => Some []
  | skill :: rest =>
      match resolve_skill_dependencies skills_dir (depth_bound skills_dir)
              skill all_skills st with
      | None => None
      | Some (dependencies, st', _) =>
          match expansions_shared skills_dir rest all_skills st' with
          | None => None
          | Some outs => Some (dependencies :: outs)
          end
      end
  end.

(** ** Documents with a header *)

Definition marker : string := "---".

(** A line that can stand between the two delimiter lines: it has no line
    break inside and is not itself the delimiter. *)
Definition header_line (line : string) : Prop :=
  Str.no_newline line = true ∧ line ≠ marker.

(** The document made of the opening line, the given header lines, the
    closing line and the body. *)
Definition with_header (lines : list string) (body : string) : string :=
  fm_open +:+ Str.join (String Str.nl EmptyString) lines +:+ fm_close +:+ body.


Definition dquote : string := String (ascii_of_N 34) EmptyString.

(** The line [requires: [a, "b", 'c']]. *)
Definition requires_abc_line : string :=
  "requires: [a, " +:+ dquote +:+ "b" +:+ dquote +:+ ", 'c']".

(** The body that the loading loop appends for a skill. *)
Definition skill_body (skills_dir : store) (skill_name : string) : string :=
  match skills_dir !! skill_name with
  | Some raw_content => (parse_skill_frontmatter raw_content).2
  | None => EmptyString
  end.


(** Only circular-dependency messages occur in [ev]. *)
Definition circular_only (ev : list diag) : Prop :=
  ∀ d, d ∈ ev → ∃ skill_name, d = DiagCircular skill_name.

(** ** Example stores *)

(** Two requested skills that need the same third one. *)
Definition shared_store : store :=
  <["x" := "---
requires: z
---
X body"]> (<["y" := "---
requires: [z]
---
Y body"]> (<["z" := "Z body"]> ∅)).

(** Two skills that require each other, and one that requires both. *)
Definition cyclic_store : store :=
  <["a" := "---
requires: b
---
A body"]> (<["b" := "---
requires: [a]
---
B body"]> (<["c" := "---
requires: [a, b]
---
C body"]> ∅)).

(** The end-to-end scenario of the specification: [x] has no header and [y]
    requires [x]. *)
Definition scenario_store : store :=
  <["x" := "X body"]> (<["y" := "---
requires: [x]
---
Y body"]> ∅).

Definition scenario_rank (skill_name : string) : nat :=
  if decide (skill_name = "y") then 1 else 0.

(** One document, and a configuration that also asks for a skill that has
    none. *)
Definition ghost_store : store := <["real" := "Real body"]> ∅.

Definition ghost_project : project :=
  Project None (Some "real
ghost
").

(** A configuration that asks only for the skill without a document, and
    a structured configuration that holds a list. *)
Definition ghost_only_project : project :=
  Project None (Some "ghost
").

Definition list_config_project : project :=
  Project (Some (JsonValue "[]")) None.


Definition home_skills : string := "/home/u/.claude/skills".

(** A project whose [.claude-skills] holds only a comment, and one with no
    configuration file. *)
Definition empty_project : project :=
  Project None (Some "# nothing yet
").

Definition absent_project : project := Project None None.

Definition malformed_project : project :=
  Project (Some (JSONDecodeError "Expecting value: line 1 column 1 (char 0)"))
          (Some "real
").

(** ** More on lines and values *)

(** Every character of [s] satisfies [p]. *)
Fixpoint all_chars (p : ascii -> bool) (s : string) : bool :=
  match s with
  | EmptyString => true
  | String c s' => p c && all_chars p s'
  end.

(** The character [c] does not occur in [s]. *)
Definition lacks (c : ascii) (s : string) : bool :=
  all_chars (fun x => negb (bool_decide (x = c))) s.

(** A line of the form [key: value], spelled out without the pattern of
    line 86: a key of one or more word characters, a colon, and at least
    one more character, which is the text that the value is read from. *)
Definition key_value_line (line key after : string) : Prop :=
  key ≠ EmptyString
  ∧ all_chars Str.is_word key = true
  ∧ after ≠ EmptyString
  ∧ line = key +:+ String ":"%char after.

(** The second groups of the lines that match with key [k], in order. *)
Definition values_for (k : string) (lines : list string) : list string :=
  omap (fun line =>
          match match_key_value line with
          | Some (k', group2) => if decide (k' = k) then Some group2 else None
          | None => None
          end) lines.

(** An item that a bracketed list gives back as it is: no comma inside, no
    whitespace and no quote at either end. *)
Definition plain_item (item : string) : Prop :=
  lacks ","%char item = true
  ∧ Str.strip Str.is_space item = item
  ∧ Str.strip Str.is_quote item = item.

(** The value [[i1, i2, ...]]. *)
Definition bracketed (items : list string) : string :=
  String "["%char (Str.join ", " items +:+ "]").

(** The record that lines 205-210 build for a skill that has a document
    (the loop builds none for a name without one). *)
Definition info_of (SKILLS_DIR : string) (skills_dir : store)
    (skill_name : string) : skill_info :=
  match skills_dir !! skill_name with
  | Some raw_content =>
      SkillInfo skill_name (skill_path SKILLS_DIR skill_name)
                (parse_skill_frontmatter raw_content).1
                (String.length raw_content)
  | None => SkillInfo skill_name (skill_path SKILLS_DIR skill_name) None 0
  end.

(** ** Command line *)

(** What the loop of lines 278-291 makes of the arguments. *)
Inductive parsed_args :=
| ArgsHelp
| ArgsUnknown (arg : string)
| ArgsParsed (o : options) (project_path : option string).

Inductive out_event :=
| OutUsage
| OutResult (r : result).

Inductive err_event :=
| ErrUnknownOption (arg : string)
| ErrDiag (d : diag).

(** How [main] ends: the argument of [sys.exit] if it is called, what was
    printed on stdout and on stderr, and the exception that leaves [main]
    if one does. *)
Record run_result := RunEnd {
  exit_code : option Z;
  stdout : list out_event;
  stderr : list err_event;
  uncaught : option exn
}.

(** A run that no exception ends. *)
Abbreviation RunResult code out err := (RunEnd code out err None).

(** [if result:] on line 296: a serialised object is never the empty
    string. *)
Definition result_truthy (r : result) : bool :=
  match r with
  | RText EmptyString => false
  | _ => true
  end.

Section Main.

(** The skills directory, the working directory, [os.path.abspath] and what
    each project directory holds. *)
Variable SKILLS_DIR : string.
Variable skills_dir : store.
Variable cwd : string.
Variable abspath : string -> string.
Variable projects : string -> project.

Fixpoint parse_args (args : list string) (o : options)
    (project_path : option string) : parsed_args :=
  match args with
  | [] => ArgsParsed o project_path
  | arg :: rest =>
      if bool_decide (arg = "--help" ∨ arg = "-h") then ArgsHelp
      else if bool_decide (arg = "--json") then
        parse_args rest (Options true (opt_silent o)) project_path
      else if bool_decide (arg = "--silent") then
        parse_args rest (Options (opt_json o) true) project_path
      else if negb (Str.startswith "-"%char arg) then
        parse_args rest o (Some (abspath arg))
      else ArgsUnknown arg
  end.

(** [main] on the arguments [sys.argv[1:]]; [None] only if the resolver hit
    its depth bound. *)
Definition main (args : list string) : option run_result :=
  match parse_args args (Options false false) None with
  | ArgsHelp => Some (RunResult (Some 0%Z) [OutUsage] [])
  | ArgsUnknown arg =>
      Some (RunResult (Some 1%Z) [OutUsage] [ErrUnknownOption arg])
  | ArgsParsed o project_path =>
      let path := default cwd project_path in
      match load_skills_for_project SKILLS_DIR skills_dir path
              (projects path) o with
      | None => None
      | Some (Exit code, ev) => Some (RunResult (Some code) [] (ErrDiag <$> ev))
      | Some (Raise e, ev) => Some (RunEnd None [] (ErrDiag <$> ev) (Some e))
      | Some (Return r, ev) =>
          if result_truthy r then
            Some (RunResult None [OutResult r] (ErrDiag <$> ev))
          else if opt_silent o then Some (RunResult None [] (ErrDiag <$> ev))
          else Some (RunResult (Some 1%Z) [] (ErrDiag <$> ev))
      end
  end.

End Main.

(** An argument that ends the loop of [main]: a request for help or an
    option that is not known. *)
Definition is_help (arg : string) : Prop := arg = "--help" ∨ arg = "-h".

Definition is_flag (arg : string) : Prop := arg = "--json" ∨ arg = "--silent".

Definition is_positional (arg : string) : Prop :=
  Str.startswith "-"%char arg = false.

Definition is_unknown (arg : string) : Prop :=
  ¬ is_help arg ∧ ¬ is_flag arg ∧ Str.startswith "-"%char arg = true.

(** An argument that lets the loop go on. *)
Definition is_benign (arg : string) : Prop :=
  ¬ is_help arg ∧ (is_flag arg ∨ is_positional arg).

(** A project for every path of the examples. *)
Definition example_projects (path : string) : project :=
  if decide (path = "/empty") then empty_project
  else if decide (path = "/ghost") then ghost_project
  else if decide (path = "/bad") then malformed_project
  else if decide (path = "/list") then list_config_project
  else absent_project.

(** ** Writing a text configuration *)

(** A name that a line of [.claude-skills] can carry: not empty, no
    whitespace at either end, not a comment, neither a line feed nor a
    carriage return inside. *)
Definition clean_name (name : string) : Prop :=
  name ≠ EmptyString
  ∧ Str.startswith "#"%char name = false
  ∧ Str.strip Str.is_space name = name
  ∧ Str.no_newline name = true
  ∧ lacks Str.cr name = true.

(** A line for the configuration file that names no skill: blank, or a
    comment. *)
Definition idle_line (line : string) : Prop :=
  Str.no_newline line = true
  ∧ lacks Str.cr line = true
  ∧ (Str.strip Str.is_space line = EmptyString
     ∨ Str.startswith "#"%char (Str.strip Str.is_space line) = true).

(** The three ways to end a line that reading in text mode accepts. *)
Definition line_end (ending : string) : Prop :=
  ending = String Str.nl EmptyString
  ∨ ending = String Str.cr (String Str.nl EmptyString)
  ∨ ending = String Str.cr EmptyString.

(** The text of the given lines, each followed by [ending]. *)
Fixpoint unlines (ending : string) (lines : list string) : string :=
  match lines with
  | [] => EmptyString
  | line :: rest => line +:+ ending +:+ unlines ending rest
  end.

(** * Facts *)

(** ** Lists *)

Lemma app_eq_middle {A} (a b l1 l2 : list A) (x : A) :
  a ++ b = l1 ++ x :: l2 →
  (∃ m, a = l1 ++ x :: m ∧ l2 = m ++ b) ∨ (∃ m, l1 = a ++ m ∧ b = m ++ x :: l2).
Proof.
  revert l1. induction a as [|y a IH]; intros l1 H; simpl in H.
  - right. by exists l1.
  - destruct l1 as [|z l1]; injection H as -> H.
    + left. by exists a.
    + destruct (IH _ H) as [(m & -> & ->)|(m & -> & ->)].
      * left. by exists m.
      * right. by exists m.
Qed.

Lemma NoDup_middle_unique {A} (l1 l2 m1 m2 : list A) (x : A) :
  NoDup (l1 ++ x :: l2) → l1 ++ x :: l2 = m1 ++ x :: m2 → l1 = m1.
Proof.
  revert m1. induction l1 as [|y l1 IH]; intros m1 Hnd H.
  - destruct m1 as [|z m1]; [done|]. simplify_eq/=.
    apply NoDup_cons in Hnd as [Hx _]. destruct Hx. set_solver.
  - destruct m1 as [|z m1]; simplify_eq/=.
    + apply NoDup_cons in Hnd as [Hx _]. destruct Hx. set_solver.
    + apply NoDup_cons in Hnd as [_ Hnd]. f_equal. by apply IH.
Qed.

Lemma before_trans (l : list string) (a b c : string) :
  NoDup l → before l a b → before l b c → before l a c.
Proof.
  intros Hnd (l1 & l2 & Hl & Ha) (m1 & m2 & Hm & Hb).
  apply list_elem_of_split in Hb as (p & q & Hp).
  exists m1, m2. split; [done|].
  assert (l1 = p) as ->; [|set_solver].
  apply (NoDup_middle_unique l1 l2 p (q ++ c :: m2) b); [by rewrite <- Hl|].
  rewrite <- Hl, Hm, Hp, <- app_assoc. done.
Qed.

Lemma before_irrefl (l : list string) (a : string) :
  NoDup l → ¬ before l a a.
Proof.
  intros Hnd (l1 & l2 & -> & Ha).
  apply NoDup_app in Hnd as (_ & Hnd & _). apply (Hnd a Ha). set_solver.
Qed.

Lemma before_elem_of (l : list string) (b a : string) :
  before l b a → b ∈ l ∧ a ∈ l.
Proof. intros (l1 & l2 & -> & Hb). set_solver. Qed.

Lemma before_lookup (l : list string) (b a : string) :
  before l b a → ∃ i j, l !! i = Some b ∧ l !! j = Some a ∧ i < j.
Proof.
  intros (l1 & l2 & -> & Hb).
  apply list_elem_of_lookup in Hb as [i Hi].
  exists i, (length l1). split_and!.
  - by apply lookup_app_l_Some.
  - by rewrite list_lookup_middle.
  - by eapply lookup_lt_Some.
Qed.

(** ** The resolver *)

Section ResolverFacts.

Variable skills_dir : store.
Variable all_skills : list string.

Local Abbreviation resolve := (fun fuel dep s =>
  resolve_skill_dependencies skills_dir fuel dep all_skills s).
Local Abbreviation req := (requires skills_dir).
Local Abbreviation reach := (rtc (requires skills_dir)).
Local Abbreviation ok := (call_ok skills_dir).

Lemma requires_has_document a b : req a b → a ∈ dom skills_dir.
Proof.
  unfold requires, skill_requires. intros H. apply elem_of_dom.
  destruct (skills_dir !! a); [eauto|]. by apply elem_of_nil in H.
Qed.

Lemma call_ok_nil (roots : list string) (s : rstate) (ev : list diag) :
  (∀ r, r ∈ roots → r ∈ dom skills_dir →
     r ∈ resolved s ∨ (r ∈ resolving s ∧ DiagCircular r ∈ ev)) →
  ok roots s [] s ev.
Proof.
  intros Hs. unfold call_ok. split_and!; try set_solver.
  - constructor.
  - intros l1 x l2 d Hnil. by destruct l1.
Qed.

Lemma resolve_each_ok (rec : string → rstate → answer) (reqs : list string) :
  (∀ dep st out st' ev,
     rec dep st = Some (out, st', ev) → ok [dep] st out st' ev) →
  ∀ st out st' ev,
    resolve_each rec reqs st = Some (out, st', ev) → ok reqs st out st' ev.
Proof.
  intros Hrec. induction reqs as [|dep rest IH]; intros st out st' ev H.
  - simplify_eq/=. apply call_ok_nil. set_solver.
  - simpl in H.
    destruct (rec dep st) as [[[out1 st1] ev1]|] eqn:H1; [|done].
    destruct (resolve_each rec rest st1) as [[[out2 st2] ev2]|] eqn:H2;
      [|done].
    simplify_eq.
    apply Hrec in H1 as (Ha1 & Hb1 & Hc1 & Hd1 & He1 & Hf1).
    apply IH in H2 as (Ha2 & Hb2 & Hc2 & Hd2 & He2 & Hf2).
    unfold call_ok. split_and!.
    + congruence.
    + rewrite Hb2, Hb1, list_to_set_app_L. set_solver.
    + apply NoDup_app. split_and!; [done| |done].
      intros x Hx1 Hx2. apply Hd2 in Hx2 as [Hx2 _].
      rewrite Hb1 in Hx2. set_solver.
    + intros x [Hx|Hx]%elem_of_app.
      * destruct (Hd1 x Hx) as (? & ? & ? & r & Hr & ?).
        split_and!; try done. exists r. set_solver.
      * destruct (Hd2 x Hx) as (Hn1 & Hn2 & ? & r & Hr & ?).
        rewrite Hb1 in Hn1. rewrite Ha1 in Hn2.
        split_and!; [set_solver|done|done|]. exists r. set_solver.
    + intros r [->|Hr]%elem_of_cons Hdom.
      * destruct (He1 dep) as [?|[? ?]]; [set_solver|done| |].
        -- left. rewrite Hb2. set_solver.
        -- right. split; [done|set_solver].
      * destruct (He2 r Hr Hdom) as [?|[? ?]]; [by left|].
        right. split; [congruence|set_solver].
    + intros l1 x l2 d Hsplit Hxd Hdom.
      apply app_eq_middle in Hsplit as [(m & -> & ->)|(m & -> & ->)].
      * destruct (Hf1 _ _ _ _ eq_refl Hxd Hdom) as [?|[?|[[?|[? ?]] ?]]];
          [by left|by right; left| |].
        -- right; right. split; [by left|set_solver].
        -- right; right. split; [right|]; set_solver.
      * destruct (Hf2 _ _ _ _ eq_refl Hxd Hdom) as [Hin|[?|[[?|?] ?]]].
        -- rewrite Hb1 in Hin. set_solver.
        -- right; left. set_solver.
        -- right; right. split; [left; congruence|set_solver].
        -- right; right. split; [by right|set_solver].
Qed.

Lemma resolve_ok (fuel : nat) :
  ∀ skill_name st out st' ev,
    resolve fuel skill_name st = Some (out, st', ev) →
    ok [skill_name] st out st' ev.
Proof.
  induction fuel as [|fuel IH]; intros name st out st' ev H; [done|].
  simpl in H.
  destruct (decide (name ∈ resolved st)).
  { simplify_eq. apply call_ok_nil. set_solver. }
  destruct (decide (name ∈ resolving st)).
  { simplify_eq. apply call_ok_nil. set_solver. }
  destruct (skills_dir !! name) as [content|] eqn:Hdoc; cycle 1.
  { simplify_eq. apply call_ok_nil.
    intros r ->%list_elem_of_singleton [? Hs]%elem_of_dom. congruence. }
  destruct (resolve_each _ _ _) as [[[deps st2] ev2]|] eqn:Hloop; [|done].
  simplify_eq.
  apply (resolve_each_ok _ _ (IH)) in Hloop
    as (Ha & Hb & Hc & Hd & He & Hf). simpl in *.
  assert (Hreq : ∀ r, r ∈ requires_of content → req name r).
  { intros r Hr. unfold requires, skill_requires. by rewrite Hdoc. }
  assert (Hreach : ∀ x, x ∈ deps → reach name x).
  { intros x Hx. destruct (Hd x Hx) as (_ & _ & _ & r & Hr & Hrx).
    eapply rtc_l; [by apply Hreq|done]. }
  unfold call_ok; simpl. split_and!.
  - rewrite Ha. set_solver.
  - rewrite Hb, list_to_set_app_L. set_solver.
  - apply NoDup_app. split_and!; [done| |apply NoDup_singleton].
    intros x Hx ->%list_elem_of_singleton.
    destruct (Hd _ Hx) as (_ & Hn & _). set_solver.
  - intros x [Hx| ->%list_elem_of_singleton]%elem_of_app.
    + destruct (Hd x Hx) as (? & ? & ? & _).
      split_and!; [done|set_solver|done|].
      exists name. split; [set_solver|by apply Hreach].
    + split_and!; [done|done|by apply elem_of_dom|].
      exists name. split; [set_solver|done].
  - intros r ->%list_elem_of_singleton _. left. set_solver.
  - intros l1 x l2 d Hsplit Hxd Hdom.
    apply app_eq_middle in Hsplit as [(m & -> & ->)|(m & -> & Hm)].
    + destruct (Hf _ _ _ _ eq_refl Hxd Hdom) as [?|[?|[[Hin|[Hin ?]] ?]]];
        [by left|by right; left| |].
      * right; right. split; [|done].
        apply elem_of_union in Hin as [->%elem_of_singleton|?];
          [|by left].
        right. split; [set_solver|]. apply Hreach. set_solver.
      * right; right. split; [|done]. right. split; [set_solver|done].
    + destruct m as [|y m]; simplify_eq/=; cycle 1.
      { by destruct m. }
      rewrite app_nil_r.
      assert (d ∈ requires_of content) as Hin.
      { unfold requires, skill_requires in Hxd. by rewrite Hdoc in Hxd. }
      destruct (He d Hin Hdom) as [Hr|[Hr ?]].
      * rewrite Hb in Hr. set_solver.
      * right; right. split; [|done].
        apply elem_of_union in Hr as [->%elem_of_singleton|?];
          [|by left].
        right. split; [set_solver|done].
Qed.

(** The recursion is as deep as there are documents not yet on the
    path, plus one. *)
Lemma resolve_each_total (rec : string → rstate → answer)
    (reqs : list string) (R : gset string) :
  (∀ dep s, resolving s = R → is_Some (rec dep s)) →
  (∀ dep s out s' ev,
     rec dep s = Some (out, s', ev) → resolving s' = resolving s) →
  ∀ s, resolving s = R → is_Some (resolve_each rec reqs s).
Proof.
  intros Htot Hkeep. induction reqs as [|dep rest IH]; intros s Hs; [by eexists|].
  simpl. destruct (Htot dep s Hs) as [[[out1 st1] ev1] H1]. rewrite H1.
  destruct (IH st1) as [[[out2 st2] ev2] H2].
  { erewrite Hkeep; [done|exact H1]. }
  rewrite H2. by eexists.
Qed.

Lemma resolve_terminates (fuel : nat) :
  ∀ skill_name st,
    size (dom skills_dir ∖ resolving st) < fuel →
    is_Some (resolve fuel skill_name st).
Proof.
  induction fuel as [|fuel IH]; intros name st Hsize; [lia|].
  simpl.
  destruct (decide (name ∈ resolved st)); [by eexists|].
  destruct (decide (name ∈ resolving st)); [by eexists|].
  destruct (skills_dir !! name) as [content|] eqn:Hdoc; [|by eexists].
  destruct (resolve_each_total
              (fun dep s => resolve fuel dep s)
              (requires_of content) ({[name]} ∪ resolving st))
    with (s := RState (resolved st) ({[name]} ∪ resolving st))
    as [[[deps st2] ev2] Hloop].
  - intros dep s Hs. apply IH. rewrite Hs.
    assert (dom skills_dir ∖ ({[name]} ∪ resolving st)
              ⊂ dom skills_dir ∖ resolving st) as Hsub%subset_size; [|lia].
    assert (name ∈ dom skills_dir) by (apply elem_of_dom; eauto).
    set_solver.
  - intros dep s out s' ev Hcall. by apply resolve_ok in Hcall as [? _].
  - done.
  - rewrite Hloop. by eexists.
Qed.

Lemma resolve_fresh (skill_name : string) :
  ∃ out st ev,
    resolve (depth_bound skills_dir) skill_name fresh = Some (out, st, ev)
    ∧ ok [skill_name] fresh out st ev.
Proof.
  destruct (resolve_terminates (depth_bound skills_dir) skill_name fresh)
    as [[[out st] ev] H].
  - unfold depth_bound. simpl. rewrite difference_empty_L, size_dom. lia.
  - exists out, st, ev. split; [done|]. by eapply resolve_ok.
Qed.

(** More fuel never changes an answer. *)
Lemma resolve_each_mono (rec rec' : string → rstate → answer)
    (reqs : list string) :
  (∀ dep s r, rec dep s = Some r → rec' dep s = Some r) →
  ∀ s r, resolve_each rec reqs s = Some r → resolve_each rec' reqs s = Some r.
Proof.
  intros Hrec. induction reqs as [|dep rest IH]; intros s r H; simpl in *;
    [done|].
  destruct (rec dep s) as [[[out1 st1] ev1]|] eqn:H1; [|done].
  rewrite (Hrec _ _ _ H1).
  destruct (resolve_each rec rest st1) as [[[out2 st2] ev2]|] eqn:H2; [|done].
  by rewrite (IH _ _ H2).
Qed.

Lemma resolve_unfold (fuel : nat) (skill_name : string) (st : rstate) :
  resolve_skill_dependencies skills_dir (S fuel) skill_name all_skills st
  = if decide (skill_name ∈ resolved st) then Some ([], st, [])
    else if decide (skill_name ∈ resolving st) then
      Some ([], st, [DiagCircular skill_name])
    else
      match skills_dir !! skill_name with
      | None => Some ([], st, [])
      | Some content =>
          match resolve_each
                  (fun dep s =>
                     resolve_skill_dependencies skills_dir fuel dep all_skills s)
                  (requires_of content)
                  (RState (resolved st) ({[skill_name]} ∪ resolving st)) with
          | None => None
          | Some (dependencies, st2, ev) =>
              Some (dependencies ++ [skill_name],
                    RState ({[skill_name]} ∪ resolved st2)
                           (resolving st2 ∖ {[skill_name]}),
                    ev)
          end
      end.
Proof. reflexivity. Qed.

Lemma resolve_fuel_mono (fuel : nat) :
  ∀ skill_name st r,
    resolve_skill_dependencies skills_dir fuel skill_name all_skills st
    = Some r →
    resolve_skill_dependencies skills_dir (S fuel) skill_name all_skills st
    = Some r.
Proof.
  induction fuel as [|fuel IH]; intros name st r H; [done|].
  rewrite resolve_unfold in H. rewrite resolve_unfold.
  destruct (decide (name ∈ resolved st)); [done|].
  destruct (decide (name ∈ resolving st)); [done|].
  destruct (skills_dir !! name) as [content|]; [|done].
  destruct (resolve_each _ (requires_of content) _)
    as [[[deps st2] ev2]|] eqn:Hloop; [|done].
  by rewrite (resolve_each_mono _ _ _ IH _ _ Hloop).
Qed.

End ResolverFacts.

Lemma tc_requires_has_document (skills_dir : store) (a b : string) :
  tc (requires skills_dir) a b → a ∈ dom skills_dir.
Proof. destruct 1; by eapply requires_has_document. Qed.

(** ** Merging the expansions *)

Lemma firsts_elem_of (seen : gset string) (l : list string) (x : string) :
  x ∈ firsts seen l ↔ x ∈ l ∧ x ∉ seen.
Proof.
  revert seen. induction l as [|y l IH]; intros seen; simpl.
  - split; [by intros ?%elem_of_nil|by intros [?%elem_of_nil _]].
  - case_decide.
    + rewrite IH, elem_of_cons. split; [tauto|].
      intros [[->|?] ?]; [contradiction|done].
    + rewrite !elem_of_cons, IH, not_elem_of_union, not_elem_of_singleton.
      destruct (decide (x = y)) as [->|?]; tauto.
Qed.

Lemma firsts_NoDup (seen : gset string) (l : list string) :
  NoDup (firsts seen l).
Proof.
  revert seen. induction l as [|y l IH]; intros seen; simpl; [constructor|].
  case_decide; [done|]. constructor; [|done].
  rewrite firsts_elem_of. set_solver.
Qed.

Lemma firsts_app (seen : gset string) (p r : list string) :
  firsts seen (p ++ r) = firsts seen p ++ firsts (list_to_set p ∪ seen) r.
Proof.
  revert seen. induction p as [|y p IH]; intros seen; simpl.
  - by rewrite union_empty_l_L.
  - case_decide.
    + rewrite IH. do 2 f_equal. set_solver.
    + simpl. rewrite IH. do 3 f_equal. set_solver.
Qed.

(** A name sits right after the first occurrences of what precedes its own
    first occurrence. *)
Lemma firsts_middle (p s : list string) (x : string) :
  x ∉ p →
  firsts ∅ (p ++ x :: s)
  = firsts ∅ p ++ x :: firsts ({[x]} ∪ (list_to_set p ∪ ∅)) s.
Proof.
  intros Hx. rewrite firsts_app. simpl. case_decide; [set_solver|done].
Qed.

Lemma merge_seen_firsts (l ordered : list string) (seen : gset string) :
  merge_seen l (ordered, seen) = (ordered ++ firsts seen l, list_to_set l ∪ seen).
Proof.
  revert ordered seen. induction l as [|y l IH]; intros ordered seen; simpl.
  - by rewrite app_nil_r, union_empty_l_L.
  - case_decide.
    + rewrite IH. f_equal. set_solver.
    + rewrite IH, <- app_assoc. f_equal. set_solver.
Qed.

Lemma merge_seen_app (a b : list string) (acc : list string * gset string) :
  merge_seen (a ++ b) acc = merge_seen b (merge_seen a acc).
Proof.
  revert acc. induction a as [|y a IH]; intros acc; simpl; [done|].
  case_decide; apply IH.
Qed.

Section AssemblerFacts.

Variable skills_dir : store.

Local Abbreviation req := (requires skills_dir).
Local Abbreviation reach := (rtc (requires skills_dir)).

(** [outs] are expansions of [todo], each from fresh sets, whose
    diagnostics are among [ev]. *)
Local Abbreviation expanded ev := (Forall2 (fun skill out =>
  ∃ st ev1, call_ok skills_dir [skill] fresh out st ev1 ∧ ev1 ⊆ ev)).

Lemma resolve_all_spec (todo all_skills : list string) :
  ∀ acc, ∃ outs ev,
    expansions skills_dir todo all_skills = Some outs
    ∧ resolve_all skills_dir todo all_skills acc
      = Some (merge_seen (concat outs) acc, ev)
    ∧ expanded ev todo outs.
Proof.
  induction todo as [|skill rest IH]; intros acc;
    cbn [expansions resolve_all].
  - exists [], []. split_and!; [done|done|constructor].
  - destruct (resolve_fresh skills_dir all_skills skill)
      as (out & st & ev1 & H1 & Hok).
    destruct (IH (merge_seen out acc)) as (outs & ev2 & H2 & H3 & Hall).
    exists (out :: outs), (ev1 ++ ev2). rewrite H1, H2, H3.
    split_and!; [done| |].
    + simpl. by rewrite merge_seen_app.
    + constructor.
      * exists st, ev1. split; [done|set_solver].
      * eapply Forall2_impl; [exact Hall|].
        intros ? ? (st' & ev' & ? & ?). exists st', ev'. set_solver.
Qed.

Lemma all_skills_ordered_spec (skills : list string) :
  ∃ outs ev,
    expansions skills_dir skills skills = Some outs
    ∧ all_skills_ordered skills_dir skills
      = Some (firsts ∅ (concat outs), ev)
    ∧ expanded ev skills outs.
Proof.
  destruct (resolve_all_spec skills skills ([], ∅))
    as (outs & ev & H1 & H2 & H3).
  exists outs, ev. split_and!; [done| |done].
  unfold all_skills_ordered. rewrite H2, merge_seen_firsts. done.
Qed.

Lemma expanded_sound ev todo outs (x : string) :
  expanded ev todo outs → x ∈ concat outs →
  x ∈ dom skills_dir ∧ ∃ top, top ∈ todo ∧ reach top x.
Proof.
  induction 1 as [|skill out rest outs' (st & ev1 & Hok & _) _ IH];
    simpl; [by intros ?%elem_of_nil|].
  intros [Hx|Hx]%elem_of_app.
  - destruct Hok as (_ & _ & _ & Hd & _).
    destruct (Hd x Hx) as (_ & _ & ? & r & ->%list_elem_of_singleton & ?).
    split; [done|]. exists skill. set_solver.
  - destruct (IH Hx) as (? & top & ? & ?).
    split; [done|]. exists top. set_solver.
Qed.

Lemma expanded_roots ev todo outs (top : string) :
  expanded ev todo outs →
  top ∈ todo → top ∈ dom skills_dir → top ∈ concat outs.
Proof.
  induction 1 as [|skill out rest outs' (st & ev1 & Hok & _) _ IH];
    simpl; [by intros ?%elem_of_nil|].
  intros [->|Hin]%elem_of_cons Hdom; apply elem_of_app.
  - left. destruct Hok as (_ & Hb & _ & _ & He & _).
    destruct (He skill) as [Hr|[Hr _]]; [set_solver|done| |set_solver].
    rewrite Hb in Hr. set_solver.
  - right. by apply IH.
Qed.

(** Every occurrence of a name is preceded by each of its documented
    requirements, unless that requirement leads back to the name and a
    circular dependency was reported for it. *)
Lemma expanded_edge ev todo outs (p s : list string) (x d : string) :
  expanded ev todo outs →
  concat outs = p ++ x :: s → req x d → d ∈ dom skills_dir →
  d ∈ p ∨ (d ∈ x :: s ∧ reach d x ∧ DiagCircular d ∈ ev).
Proof.
  intros Hexp. revert p.
  induction Hexp as [|skill out rest outs' (st & ev1 & Hok & Hsub) _ IH];
    intros p Hsplit Hxd Hdom; simpl in Hsplit.
  { by destruct p. }
  apply app_eq_middle in Hsplit as [(m & -> & ->)|(m & -> & Hm)].
  - destruct Hok as (_ & _ & _ & _ & _ & Hf).
    destruct (Hf _ _ _ _ eq_refl Hxd Hdom) as [?|[?|[[?|[? ?]] ?]]];
      [set_solver|by left|set_solver|].
    right. split_and!; [set_solver|done|set_solver].
  - destruct (IH _ Hm Hxd Hdom) as [?|?]; [left; set_solver|by right].
Qed.

Lemma expanded_closed ev todo outs (x d : string) :
  expanded ev todo outs →
  x ∈ concat outs → req x d → d ∈ dom skills_dir → d ∈ concat outs.
Proof.
  intros Hexp (p & s & Hsplit)%list_elem_of_split Hxd Hdom.
  destruct (expanded_edge _ _ _ _ _ _ _ Hexp Hsplit Hxd Hdom) as [?|[? _]];
    rewrite Hsplit; set_solver.
Qed.

Lemma expanded_complete ev todo outs (top x : string) :
  expanded ev todo outs →
  top ∈ todo → reach top x → x ∈ dom skills_dir → x ∈ concat outs.
Proof.
  intros Hexp Htop. revert x.
  refine (rtc_ind_r (fun z => z ∈ dom skills_dir → z ∈ concat outs) top _ _).
  - by eapply expanded_roots.
  - intros y z Hy Hyz IH Hz. eapply expanded_closed; [done| |exact Hyz|done].
    apply IH. by eapply requires_has_document.
Qed.

(** One expansion from fresh sets is the documented closure of its skill. *)
Lemma call_ok_closure (skill : string) (out : list string) (st : rstate)
    (ev : list diag) :
  call_ok skills_dir [skill] fresh out st ev →
  ∀ x, x ∈ out ↔ x ∈ dom skills_dir ∧ reach skill x.
Proof.
  intros Hok x.
  assert (expanded ev [skill] [out]) as Hexp.
  { constructor; [|constructor]. by exists st, ev. }
  pose proof Hok as (_ & _ & _ & Hd & _). split.
  - intros Hx. destruct (Hd x Hx) as (_ & _ & ? & r & Hr & ?).
    apply list_elem_of_singleton in Hr as ->. done.
  - intros [Hdom Hreach].
    pose proof (expanded_complete ev [skill] [out] skill x Hexp) as Hin.
    simpl in Hin. rewrite app_nil_r in Hin. apply Hin; [set_solver|done|done].
Qed.

Lemma expanded_closures ev todo outs :
  expanded ev todo outs →
  Forall2 (fun skill out =>
             ∀ x, x ∈ out ↔ x ∈ dom skills_dir ∧ reach skill x) todo outs.
Proof.
  intros H. eapply Forall2_impl; [exact H|].
  intros skill out (st & ev1 & Hok & _). by eapply call_ok_closure.
Qed.

(** In the merged order a documented requirement stands before the name
    that requires it, unless a circular dependency was reported for a
    name on a cycle. *)
Lemma order_edge ev todo outs (x d : string) :
  expanded ev todo outs →
  x ∈ firsts ∅ (concat outs) → req x d → d ∈ dom skills_dir →
  before (firsts ∅ (concat outs)) d x
  ∨ (DiagCircular d ∈ ev ∧ tc req d d ∧ d ∈ firsts ∅ (concat outs)).
Proof.
  intros Hexp [Hx _]%firsts_elem_of Hxd Hdom.
  apply list_elem_of_split_l in Hx as (p & s & Hsplit & Hnp).
  destruct (expanded_edge _ _ _ _ _ _ _ Hexp Hsplit Hxd Hdom)
    as [Hd|(Hin & Hdx & Hev)].
  - left. rewrite Hsplit, firsts_middle by done.
    eexists _, _. split; [done|]. apply firsts_elem_of. set_solver.
  - right. split_and!; [done| |].
    + eapply tc_rtc_l; [exact Hdx|by apply tc_once].
    + apply firsts_elem_of. rewrite Hsplit. set_solver.
Qed.

Lemma order_path ev todo outs (a b : string) :
  expanded ev todo outs →
  tc req a b → a ∈ firsts ∅ (concat outs) → b ∈ dom skills_dir →
  before (firsts ∅ (concat outs)) b a
  ∨ (∃ d, DiagCircular d ∈ ev ∧ tc req d d ∧ d ∈ firsts ∅ (concat outs)).
Proof.
  intros Hexp Hab.
  induction Hab as [a b Hab|a m b Ham Hmb IH]; intros Ha Hb.
  - destruct (order_edge _ _ _ a b Hexp) as [?|?]; eauto.
  - assert (m ∈ dom skills_dir) as Hm.
    { by eapply tc_requires_has_document. }
    destruct (order_edge _ _ _ a m Hexp) as [Hbef|?]; eauto.
    destruct IH as [?|?]; eauto.
    { by apply before_elem_of in Hbef as [? _]. }
    left. eapply before_trans; eauto using firsts_NoDup.
Qed.

End AssemblerFacts.

(** ** Loading *)

Section LoadingFacts.

Variable SKILLS_DIR : string.
Variable skills_dir : store.

Local Abbreviation body := (skill_body skills_dir).

Lemma load_skills_documented (o : options) (order : list string) :
  (∀ x, x ∈ order → x ∈ dom skills_dir) →
  loaded_skills (load_skills SKILLS_DIR skills_dir o order) = order
  ∧ missing_skills (load_skills SKILLS_DIR skills_dir o order) = []
  ∧ skills_content (load_skills SKILLS_DIR skills_dir o order)
    = body <$> order.
Proof.
  unfold load_skills.
  assert (∀ acc,
    (∀ x, x ∈ order → x ∈ dom skills_dir) →
    let l := foldl (load_skill SKILLS_DIR skills_dir o) acc order in
    loaded_skills l = loaded_skills acc ++ order
    ∧ missing_skills l = missing_skills acc
    ∧ skills_content l = skills_content acc ++ (body <$> order)) as Hgen.
  { induction order as [|x order IH]; intros acc Hdom; simpl.
    - by rewrite !app_nil_r.
    - destruct (IH (load_skill SKILLS_DIR skills_dir o acc x)) as (H1 & H2 & H3).
      { intros y Hy. apply Hdom. set_solver. }
      rewrite H1, H2, H3. unfold load_skill, skill_body.
      assert (is_Some (skills_dir !! x)) as [raw Hraw].
      { apply elem_of_dom, Hdom. set_solver. }
      rewrite Hraw. destruct (parse_skill_frontmatter raw) as [fm content].
      simpl. by rewrite <- !app_assoc. }
  intros Hdom. apply (Hgen (Loading [] [] [] []) Hdom).
Qed.

(** Whatever the resolver returns has a document, so the branch of
    line 212 is never taken. *)
Lemma order_documented (skills order : list string) (ev : list diag) :
  all_skills_ordered skills_dir skills = Some (order, ev) →
  ∀ x, x ∈ order → x ∈ dom skills_dir.
Proof.
  intros H x Hx.
  destruct (all_skills_ordered_spec skills_dir skills)
    as (outs & ev' & _ & H' & Hexp).
  rewrite H' in H. simplify_eq.
  apply firsts_elem_of in Hx as [Hx _].
  by eapply expanded_sound in Hx as [? _].
Qed.

End LoadingFacts.

Lemma order_members (skills_dir : store) (skills order : list string)
    (ev : list diag) :
  all_skills_ordered skills_dir skills = Some (order, ev) →
  NoDup order
  ∧ ∀ x, x ∈ order ↔
      x ∈ dom skills_dir
      ∧ ∃ top, top ∈ skills ∧ rtc (requires skills_dir) top x.
Proof.
  intros H.
  destruct (all_skills_ordered_spec skills_dir skills)
    as (outs & ev' & _ & H' & Hexp).
  rewrite H' in H. simplify_eq. split; [apply firsts_NoDup|].
  intros x. rewrite firsts_elem_of. split.
  - intros [Hx _]. by eapply expanded_sound.
  - intros (Hdom & top & Htop & Hreach). split; [|set_solver].
    by eapply expanded_complete.
Qed.

Lemma load_skills_metadata (SKILLS_DIR : string) (skills_dir : store)
    (o : options) (order : list string) :
  (∀ x, x ∈ order → x ∈ dom skills_dir) →
  skills_metadata (load_skills SKILLS_DIR skills_dir o order)
  = if opt_json o then info_of SKILLS_DIR skills_dir <$> order else [].
Proof.
  unfold load_skills.
  assert (∀ acc,
    (∀ x, x ∈ order → x ∈ dom skills_dir) →
    skills_metadata (foldl (load_skill SKILLS_DIR skills_dir o) acc order)
    = skills_metadata acc
      ++ (if opt_json o then info_of SKILLS_DIR skills_dir <$> order else []))
    as Hgen.
  { induction order as [|x order IH]; intros acc Hdom; simpl.
    - destruct (opt_json o); by rewrite app_nil_r.
    - rewrite IH by (intros y Hy; apply Hdom; set_solver).
      unfold load_skill, info_of.
      assert (is_Some (skills_dir !! x)) as [raw Hraw].
      { apply elem_of_dom, Hdom. set_solver. }
      rewrite Hraw. destruct (parse_skill_frontmatter raw) as [fm content].
      simpl. destruct (opt_json o); [|done].
      by rewrite <- app_assoc. }
  intros Hdom. apply (Hgen (Loading [] [] [] []) Hdom).
Qed.

Lemma acyclic_by_rank (skills_dir : store) (rank : string → nat) :
  (∀ a b, requires skills_dir a b → rank b < rank a) → acyclic skills_dir.
Proof.
  intros Hrank a Ha.
  assert (∀ x y, tc (requires skills_dir) x y → rank y < rank x) as Htc.
  { induction 1 as [x y H|x y z H _ IH]; [by apply Hrank|].
    apply Hrank in H. lia. }
  apply Htc in Ha. lia.
Qed.

Lemma scenario_acyclic : acyclic scenario_store.
Proof.
  apply (acyclic_by_rank _ scenario_rank). intros a b.
  unfold requires, skill_requires, scenario_store.
  destruct (decide (a = "x")) as [->|Hx].
  { vm_compute. by intros ?%elem_of_nil. }
  destruct (decide (a = "y")) as [->|Hy].
  { rewrite lookup_insert_ne, lookup_insert_eq by done.
    intros ->%list_elem_of_singleton. vm_compute. lia. }
  rewrite !lookup_insert_ne, lookup_empty by done.
  by intros ?%elem_of_nil.
Qed.

Lemma expansions_from_fresh (skills_dir : store) (todo all_skills : list string)
    (outs : list (list string)) :
  expansions skills_dir todo all_skills = Some outs →
  Forall2 (fun skill out => ∃ st ev,
             resolve_skill_dependencies skills_dir (depth_bound skills_dir)
               skill all_skills fresh = Some (out, st, ev)) todo outs.
Proof.
  revert outs. induction todo as [|skill rest IH]; intros outs H;
    cbn [expansions] in H.
  - simplify_eq. constructor.
  - destruct (resolve_skill_dependencies _ _ skill _ _)
      as [[[out st] ev]|] eqn:H1; [|done].
    destruct (expansions skills_dir rest all_skills) as [outs'|]; [|done].
    simplify_eq. constructor; [by exists st, ev|by apply IH].
Qed.

(** * The assembled order *)

(** C5 (idempotence of resolution).  Whatever the configuration and the
    store, every configured skill is expanded to the documented names that
    can be reached from it, so a documented skill that two configured
    skills reach (one that both require, or one that is configured and also
    required) is returned by both expansions.  The global order holds no
    name twice; it holds exactly the names some expansion returned, which
    are the documented names reachable from the configured list; and a name
    stands where it was first resolved: the names before it are exactly the
    names returned before its first occurrence. *)
Theorem first_resolution_wins (skills_dir : store) (skills : list string) :
  ∃ outs order ev,
    expansions skills_dir skills skills = Some outs
    ∧ all_skills_ordered skills_dir skills = Some (order, ev)
    ∧ Forall2 (fun skill out =>
                 ∀ x, x ∈ out ↔
                   x ∈ dom skills_dir ∧ rtc (requires skills_dir) skill x)
              skills outs
    ∧ NoDup order
    ∧ (∀ name, name ∈ order ↔ name ∈ concat outs)
    ∧ (∀ name, name ∈ order ↔
         name ∈ dom skills_dir
         ∧ ∃ top, top ∈ skills ∧ rtc (requires skills_dir) top name)
    ∧ (∀ p name s, concat outs = p ++ name :: s → name ∉ p →
         ∃ o1 o2, order = o1 ++ name :: o2 ∧ ∀ y, y ∈ o1 ↔ y ∈ p)
    ∧ (∀ i j top1 top2 name,
         i ≠ j → skills !! i = Some top1 → skills !! j = Some top2 →
         name ∈ dom skills_dir →
         rtc (requires skills_dir) top1 name →
         rtc (requires skills_dir) top2 name →
         (∃ out1 out2, outs !! i = Some out1 ∧ outs !! j = Some out2
                       ∧ name ∈ out1 ∧ name ∈ out2)
         ∧ ∃ o1 o2, order = o1 ++ name :: o2 ∧ name ∉ o1 ∧ name ∉ o2).
Proof.
  destruct (all_skills_ordered_spec skills_dir skills)
    as (outs & ev & H1 & H2 & Hexp).
  pose proof (expanded_closures _ _ _ _ Hexp) as Hclos.
  destruct (order_members _ _ _ _ H2) as [Hnd Hmem].
  exists outs, (firsts ∅ (concat outs)), ev.
  split_and!; [done|done|done|done| |done| |].
  - intros name. rewrite firsts_elem_of. set_solver.
  - intros p name s Hsplit Hnp. rewrite Hsplit, firsts_middle by done.
    eexists _, _. split; [done|].
    intros y. rewrite firsts_elem_of. set_solver.
  - intros i j top1 top2 name _ Hi Hj Hdom Hr1 Hr2. split.
    + destruct (Forall2_lookup_l _ _ _ _ _ Hclos Hi) as (out1 & Ho1 & Hc1).
      destruct (Forall2_lookup_l _ _ _ _ _ Hclos Hj) as (out2 & Ho2 & Hc2).
      exists out1, out2. split_and!; [done|done|by apply Hc1|by apply Hc2].
    + assert (name ∈ firsts ∅ (concat outs)) as Hin.
      { apply Hmem. split; [done|]. exists top1. split; [|done].
        by eapply list_elem_of_lookup_2. }
      apply list_elem_of_split in Hin as (o1 & o2 & Heq).
      exists o1, o2. split; [done|]. rewrite Heq in Hnd.
      apply NoDup_app in Hnd as (_ & Hno1 & Hnd2).
      apply NoDup_cons in Hnd2 as [Hno2 _]. split; [|done].
      intros Hin1. apply (Hno1 name Hin1). set_solver.
Qed.

(** Two skills that both require a third, which is also asked for by name:
    three expansions return it, and it stands once, in front. *)
Lemma first_resolution_wins_shared :
  ∃ outs order ev,
    expansions shared_store ["x"; "y"; "z"] ["x"; "y"; "z"] = Some outs
    ∧ all_skills_ordered shared_store ["x"; "y"; "z"] = Some (order, ev)
    ∧ outs = [["z"; "x"]; ["z"; "y"]; ["z"]]
    ∧ order = ["z"; "x"; "y"]
    ∧ NoDup order
    ∧ (∀ name, name ∈ order ↔
         name ∈ dom shared_store
         ∧ ∃ top, top ∈ ["x"; "y"; "z"]
                  ∧ rtc (requires shared_store) top name)
    ∧ (∀ p name s, concat outs = p ++ name :: s → name ∉ p →
         ∃ o1 o2, order = o1 ++ name :: o2 ∧ ∀ y, y ∈ o1 ↔ y ∈ p).
Proof.
  destruct (first_resolution_wins shared_store ["x"; "y"; "z"])
    as (outs & order & ev & H1 & H2 & _ & Hnd & _ & Hmem & Hpos & _).
  exists outs, order, ev.
  split_and!; [done|done| | |done|done|done].
  - vm_compute in H1. by injection H1 as <-.
  - vm_compute in H2. by injection H2 as <- _.
Defined.

(** C3 (topological validity).  When no skill reachable from the configured
    list requires itself through a chain of documents, the final order holds
    each name once, holds exactly the documented names reachable from the
    configured list, and places every documented skill [b] that a reachable
    skill [a] transitively requires at a strictly smaller position than
    [a]. *)
Theorem load_order_topological (skills_dir : store) (skills : list string) :
  acyclic_from skills_dir skills →
  ∃ order ev,
    all_skills_ordered skills_dir skills = Some (order, ev)
    ∧ NoDup order
    ∧ (∀ x, x ∈ order ↔
         x ∈ dom skills_dir
         ∧ ∃ top, top ∈ skills ∧ rtc (requires skills_dir) top x)
    ∧ (∀ top a b,
         top ∈ skills → rtc (requires skills_dir) top a →
         tc (requires skills_dir) a b → b ∈ dom skills_dir →
         ∃ i j, order !! i = Some b ∧ order !! j = Some a ∧ i < j).
Proof.
  intros Hacyclic.
  destruct (all_skills_ordered_spec skills_dir skills)
    as (outs & ev & _ & H2 & Hexp).
  exists (firsts ∅ (concat outs)), ev.
  assert (Hmem : ∀ x, x ∈ firsts ∅ (concat outs) ↔
            x ∈ dom skills_dir
            ∧ ∃ top, top ∈ skills ∧ rtc (requires skills_dir) top x).
  { intros x. rewrite firsts_elem_of. split.
    - intros [Hx _]. by eapply expanded_sound.
    - intros (Hdom & top & Htop & Hreach). split; [|set_solver].
      by eapply expanded_complete. }
  split_and!; [done|apply firsts_NoDup|done|].
  intros top a b Htop Hreach Hab Hb. apply before_lookup.
  assert (a ∈ firsts ∅ (concat outs)) as Ha.
  { apply Hmem. split; [|by exists top].
    by eapply tc_requires_has_document. }
  destruct (order_path _ _ _ _ _ _ Hexp Hab Ha Hb)
    as [?|(d & _ & Hd & Hin)]; [done|].
  apply Hmem in Hin as (_ & top' & Htop' & Hreach').
  by destruct (Hacyclic top' d).
Qed.

Lemma load_order_topological_scenario :
  ∃ order ev,
    all_skills_ordered scenario_store ["x"; "y"] = Some (order, ev)
    ∧ NoDup order
    ∧ (∀ x, x ∈ order ↔
         x ∈ dom scenario_store
         ∧ ∃ top, top ∈ ["x"; "y"] ∧ rtc (requires scenario_store) top x)
    ∧ (∀ top a b,
         top ∈ ["x"; "y"] → rtc (requires scenario_store) top a →
         tc (requires scenario_store) a b → b ∈ dom scenario_store →
         ∃ i j, order !! i = Some b ∧ order !! j = Some a ∧ i < j).
Proof.
  apply (load_order_topological scenario_store ["x"; "y"]).
  intros top a _ _. apply scenario_acyclic.
Defined.

(** C4 (cycle safety and termination).  On every store, cyclic or not, the
    resolution of every configured list returns; the order it returns has
    no duplicate and still holds every documented skill reachable from the
    list; a cycle that can be reached is reported by a circular-dependency
    diagnostic for a name that is on a cycle and in the order; and the call that meets a name on the
    current path returns nothing, prints that diagnostic and leaves both
    sets as they were, so that the loop over the siblings goes on. *)
Theorem cycle_safety (skills_dir : store) (skills : list string) :
  ∃ order ev,
    all_skills_ordered skills_dir skills = Some (order, ev)
    ∧ NoDup order
    ∧ (∀ top x, top ∈ skills → rtc (requires skills_dir) top x →
         x ∈ dom skills_dir → x ∈ order)
    ∧ (∀ top c, top ∈ skills → rtc (requires skills_dir) top c →
         tc (requires skills_dir) c c →
         ∃ d, DiagCircular d ∈ ev ∧ tc (requires skills_dir) d d ∧ d ∈ order)
    ∧ (∀ fuel skill_name all_skills st,
         skill_name ∉ resolved st → skill_name ∈ resolving st →
         resolve_skill_dependencies skills_dir (S fuel) skill_name all_skills st
         = Some ([], st, [DiagCircular skill_name])).
Proof.
  destruct (all_skills_ordered_spec skills_dir skills)
    as (outs & ev & _ & H2 & Hexp).
  exists (firsts ∅ (concat outs)), ev.
  assert (Hin : ∀ top x, top ∈ skills → rtc (requires skills_dir) top x →
            x ∈ dom skills_dir → x ∈ firsts ∅ (concat outs)).
  { intros top x Htop Hreach Hdom. apply firsts_elem_of. split; [|set_solver].
    by eapply expanded_complete. }
  split_and!; [done|apply firsts_NoDup|done| |].
  - intros top c Htop Hreach Hcc.
    assert (c ∈ dom skills_dir) as Hdom.
    { by eapply tc_requires_has_document. }
    assert (c ∈ firsts ∅ (concat outs)) as Hc by (by eapply Hin).
    destruct (order_path _ _ _ _ _ _ Hexp Hcc Hc Hdom) as [Hbad|?]; [|done].
    by apply before_irrefl in Hbad; [|apply firsts_NoDup].
  - intros fuel name all_skills st Hn Hy. simpl.
    rewrite decide_False, decide_True by done. done.
Qed.

Lemma cycle_safety_cyclic :
  ∃ order ev,
    all_skills_ordered cyclic_store ["a"; "c"] = Some (order, ev)
    ∧ NoDup order
    ∧ (∀ top x, top ∈ ["a"; "c"] → rtc (requires cyclic_store) top x →
         x ∈ dom cyclic_store → x ∈ order)
    ∧ (∀ top c, top ∈ ["a"; "c"] → rtc (requires cyclic_store) top c →
         tc (requires cyclic_store) c c →
         ∃ d, DiagCircular d ∈ ev ∧ tc (requires cyclic_store) d d ∧ d ∈ order)
    ∧ (∀ fuel skill_name all_skills st,
         skill_name ∉ resolved st → skill_name ∈ resolving st →
         resolve_skill_dependencies cyclic_store (S fuel) skill_name all_skills st
         = Some ([], st, [DiagCircular skill_name])).
Proof. apply (cycle_safety cyclic_store ["a"; "c"]). Defined.

(** The cyclic example, run: both participants once, one diagnostic per
    expansion that meets the cycle. *)
Example cyclic_store_run :
  all_skills_ordered cyclic_store ["a"; "c"]
  = Some (["b"; "a"; "c"], [DiagCircular "a"; DiagCircular "a"]).
Proof. vm_compute. reflexivity. Qed.


(** * Frontmatter *)

Lemma sapp_nil_l (s : string) : "" +:+ s = s.
Proof. reflexivity. Qed.

Lemma sapp_cons (c : ascii) (s t : string) :
  String c s +:+ t = String c (s +:+ t).
Proof. reflexivity. Qed.

(** Push the appends below the constructors, then compute. *)
Ltac ssimpl := rewrite ?sapp_cons, ?sapp_nil_l; simpl.
Ltac ssimpl_in H := rewrite ?sapp_cons, ?sapp_nil_l in H; simpl in H.

Lemma sapp_nil_r (s : string) : s +:+ "" = s.
Proof. induction s as [|c s IH]; ssimpl; [done|by f_equal]. Qed.

Lemma sapp_assoc (a b c : string) : (a +:+ b) +:+ c = a +:+ b +:+ c.
Proof. induction a as [|x a IH]; ssimpl; [done|by f_equal]. Qed.

Lemma strip_prefix_app (pre s : string) :
  Str.strip_prefix pre (pre +:+ s) = Some s.
Proof.
  induction pre as [|c pre IH]; ssimpl; [by destruct s|].
  by rewrite decide_True.
Qed.

Lemma strip_prefix_Some (pre s r : string) :
  Str.strip_prefix pre s = Some r → s = pre +:+ r.
Proof.
  revert s. induction pre as [|c pre IH]; intros s H; simpl in *.
  - destruct s; by simplify_eq.
  - destruct s as [|d s]; [done|]. case_decide; [|done].
    subst. by rewrite (IH s H).
Qed.

Lemma cut_Some (sep s a b : string) :
  Str.cut sep s = Some (a, b) → s = a +:+ sep +:+ b.
Proof.
  revert a. induction s as [|c s IH]; intros a H; simpl in H.
  - destruct (Str.strip_prefix sep "") as [r|] eqn:Hp; [|done].
    simplify_eq. by apply strip_prefix_Some in Hp.
  - destruct (Str.strip_prefix sep (String c s)) as [r|] eqn:Hp.
    + simplify_eq. by apply strip_prefix_Some in Hp.
    + destruct (Str.cut sep s) as [[a' b']|] eqn:Hc; [|done].
      simplify_eq. ssimpl. by rewrite <- (IH a').
Qed.

Lemma cut_None (sep s : string) :
  Str.cut sep s = None → ∀ a b, s ≠ a +:+ sep +:+ b.
Proof.
  induction s as [|c s IH]; intros H a b Heq; simpl in H.
  - destruct (Str.strip_prefix sep "") as [r|] eqn:Hp; [done|].
    destruct a; [|done]. ssimpl_in Heq.
    rewrite Heq, strip_prefix_app in Hp. done.
  - destruct (Str.strip_prefix sep (String c s)) as [r|] eqn:Hp; [done|].
    destruct a as [|x a]; ssimpl_in Heq.
    + rewrite Heq, strip_prefix_app in Hp. done.
    + destruct (Str.cut sep s) as [[a' b']|] eqn:Hc; [done|].
      injection Heq as -> Heq. by eapply IH.
Qed.


Lemma cut_prefix (sep b : string) :
  Str.cut sep (sep +:+ b) = Some (EmptyString, b).
Proof.
  destruct (sep +:+ b) eqn:E; simpl; by rewrite <- E, strip_prefix_app.
Qed.

(** The scan for the closing line passes over a line without a line break. *)
Lemma cut_skip_line (l rest : string) :
  Str.no_newline l = true →
  Str.cut fm_close (l +:+ rest)
  = (fun '(a, b) => (l +:+ a, b)) <$> Str.cut fm_close rest.
Proof.
  induction l as [|c l IH]; intros Hl; ssimpl.
  - by destruct (Str.cut fm_close rest) as [[a b]|].
  - simpl in Hl. case_decide as Hc; [done|].
    rewrite decide_False by done. rewrite (IH Hl).
    by destruct (Str.cut fm_close rest) as [[a b]|].
Qed.

(** A header line followed by a line break is not the closing line. *)
Lemma fm_open_mismatch (l rest : string) :
  header_line l → Str.strip_prefix fm_open (l +:+ String Str.nl rest) = None.
Proof.
  intros [Hnl Hm]. unfold marker in Hm.
  do 4 (destruct l as [|? l]; ssimpl; simpl in Hnl;
        repeat case_decide; simplify_eq; try done).
Qed.

Lemma join_shape (l : string) (rest : list string) (tail : string) :
  ∃ x, Str.join (String Str.nl "") (l :: rest) +:+ String Str.nl tail
       = l +:+ String Str.nl x.
Proof.
  destruct rest as [|l2 rest]; [by exists tail|].
  exists (Str.join (String Str.nl "") (l2 :: rest) +:+ String Str.nl tail).
  change (Str.join (String Str.nl "") (l :: l2 :: rest))
    with (l +:+ String Str.nl "" +:+ Str.join (String Str.nl "") (l2 :: rest)).
  by rewrite !sapp_assoc.
Qed.

Lemma cut_step (rest : string) :
  Str.strip_prefix fm_open rest = None →
  Str.cut fm_close (String Str.nl rest)
  = (fun '(a, b) => (String Str.nl a, b)) <$> Str.cut fm_close rest.
Proof.
  intros H. cbn [Str.cut]. unfold fm_close at 1. cbn [Str.strip_prefix].
  rewrite decide_True, H by done.
  by destruct (Str.cut fm_close rest) as [[a b]|].
Qed.

Lemma cut_header (lines : list string) (body : string) :
  lines ≠ [] → Forall header_line lines →
  Str.cut fm_close (Str.join (String Str.nl "") lines +:+ fm_close +:+ body)
  = Some (Str.join (String Str.nl "") lines, body).
Proof.
  induction lines as [|l rest IH]; intros Hne Hall; [done|].
  apply Forall_cons in Hall as [[Hl Hm] Hall].
  destruct rest as [|l2 rest].
  - cbn [Str.join]. rewrite (cut_skip_line _ _ Hl), cut_prefix. simpl.
    by rewrite sapp_nil_r.
  - specialize (IH ltac:(done) Hall).
    destruct (join_shape l2 rest (fm_open +:+ body)) as [x Hx].
    change (String Str.nl (fm_open +:+ body)) with (fm_close +:+ body) in Hx.
    change (Str.join (String Str.nl "") (l :: l2 :: rest))
      with (l +:+ String Str.nl "" +:+ Str.join (String Str.nl "") (l2 :: rest)).
    remember (Str.join (String Str.nl "") (l2 :: rest)) as J eqn:HJ.
    rewrite !sapp_assoc, (cut_skip_line _ _ Hl), sapp_cons, sapp_nil_l.
    rewrite cut_step, IH; [done|].
    rewrite Hx. apply fm_open_mismatch. by apply Forall_cons in Hall as [? _].
Qed.

Lemma split_single (l : string) :
  Str.no_newline l = true → Str.split Str.nl l = [l].
Proof.
  induction l as [|c l IH]; intros Hl; simpl in *; [done|].
  case_decide; [done|]. by rewrite (IH Hl).
Qed.

Lemma split_line (l rest : string) :
  Str.no_newline l = true →
  Str.split Str.nl (l +:+ String Str.nl rest) = l :: Str.split Str.nl rest.
Proof.
  induction l as [|c l IH]; intros Hl; ssimpl.
  - done.
  - simpl in Hl. case_decide; [done|]. by rewrite (IH Hl).
Qed.

Lemma split_join (lines : list string) :
  lines ≠ [] → Forall (fun l => Str.no_newline l = true) lines →
  Str.split Str.nl (Str.join (String Str.nl "") lines) = lines.
Proof.
  induction lines as [|l rest IH]; intros Hne Hall; [done|].
  apply Forall_cons in Hall as [Hl Hall].
  destruct rest as [|l2 rest]; [by apply split_single|].
  specialize (IH ltac:(done) Hall).
  change (Str.join (String Str.nl "") (l :: l2 :: rest))
    with (l +:+ String Str.nl "" +:+ Str.join (String Str.nl "") (l2 :: rest)).
  remember (Str.join (String Str.nl "") (l2 :: rest)) as J eqn:HJ.
  by rewrite sapp_cons, sapp_nil_l, (split_line _ _ Hl), IH.
Qed.

(** The lines that the parser looks at never hold a line break. *)
Lemma split_no_newline (s l : string) :
  l ∈ Str.split Str.nl s → Str.no_newline l = true.
Proof.
  revert l. induction s as [|c s IH]; intros l; simpl.
  - by intros ->%list_elem_of_singleton.
  - case_decide.
    + intros [->|?]%elem_of_cons; [done|by apply IH].
    + destruct (Str.split Str.nl s) as [|h t] eqn:E.
      * intros ->%list_elem_of_singleton. simpl. by rewrite decide_False.
      * intros [->|?]%elem_of_cons.
        -- simpl. rewrite decide_False by done. apply IH. set_solver.
        -- apply IH. set_solver.
Qed.



Lemma parse_lines_origin (lines : list string) (fm : frontmatter)
    (k : string) (val : fm_value) :
  foldl parse_line fm lines !! k = Some val →
  fm !! k = Some val
  ∨ ∃ l v, l ∈ lines ∧ match_key_value l = Some (k, v) ∧ val = parse_value v.
Proof.
  revert fm. induction lines as [|l lines IH]; intros fm H; simpl in H;
    [by left|].
  destruct (IH _ H) as [Hfm|(l' & v & ? & ? & ?)].
  - unfold parse_line in Hfm.
    destruct (match_key_value l) as [[k' v]|] eqn:Hm; [|by left].
    destruct (decide (k' = k)) as [->|?].
    + rewrite lookup_insert_eq in Hfm. simplify_eq.
      right. exists l, v. set_solver.
    + rewrite lookup_insert_ne in Hfm by done. by left.
  - right. exists l', v. set_solver.
Qed.

Lemma parse_with_header (lines : list string) (body : string) :
  lines ≠ [] → Forall header_line lines →
  parse_skill_frontmatter (with_header lines body)
  = (Some (parse_lines lines), body).
Proof.
  intros Hne Hall. unfold parse_skill_frontmatter, with_header.
  rewrite strip_prefix_app, cut_header, split_join; [done|done| |done|done].
  eapply Forall_impl; [exact Hall|]. by intros l [? _].
Qed.

(** ** Stripping *)

Lemma lstrip_head (p : ascii → bool) (s : string) (c : ascii) (r : string) :
  Str.lstrip p s = String c r → p c = false.
Proof.
  induction s as [|x s IH]; simpl; [done|].
  destruct (p x) eqn:Hx; [done|]. intros ?; by simplify_eq.
Qed.

Lemma lstrip_all (p : ascii → bool) (s : string) :
  Str.lstrip p s = EmptyString → all_chars p s = true.
Proof.
  induction s as [|x s IH]; simpl; [done|].
  destruct (p x) eqn:Hx; [done|]. intros ?; by simplify_eq.
Qed.

Lemma rstrip_all (p : ascii → bool) (s : string) :
  all_chars p s = true → Str.rstrip p s = EmptyString.
Proof.
  induction s as [|x s IH]; simpl; [done|].
  intros [Hx Hs]%andb_prop. by rewrite (IH Hs), Hx.
Qed.

Lemma last_all (p : ascii → bool) (s : string) (c : ascii) :
  all_chars p s = true → Str.last s = Some c → p c = true.
Proof.
  induction s as [|x s IH]; simpl; [done|].
  intros [Hx Hs]%andb_prop. destruct s; [intros ?; by simplify_eq|by apply IH].
Qed.

Lemma lstrip_idem (p : ascii → bool) (s : string) :
  Str.lstrip p (Str.lstrip p s) = Str.lstrip p s.
Proof.
  induction s as [|x s IH]; simpl; [done|].
  destruct (p x) eqn:Hx; [done|]. simpl. by rewrite Hx.
Qed.

Lemma rstrip_cons (p : ascii → bool) (x : ascii) (s : string) :
  Str.rstrip p (String x s)
  = match Str.rstrip p s with
    | EmptyString => if p x then EmptyString else String x EmptyString
    | r => String x r
    end.
Proof. reflexivity. Qed.

Lemma rstrip_idem (p : ascii → bool) (s : string) :
  Str.rstrip p (Str.rstrip p s) = Str.rstrip p s.
Proof.
  induction s as [|x s IH]; [done|]. rewrite rstrip_cons.
  destruct (Str.rstrip p s) as [|y r] eqn:Hr.
  - destruct (p x) eqn:Hx; [done|]. simpl. by rewrite Hx.
  - by rewrite rstrip_cons, IH.
Qed.

(** Stripping on the right keeps a first character that is not stripped. *)
Lemma rstrip_keeps_head (p : ascii → bool) (c : ascii) (s : string) :
  p c = false → ∃ r, Str.rstrip p (String c s) = String c r.
Proof.
  intros Hc. simpl. destruct (Str.rstrip p s); rewrite ?Hc; by eexists.
Qed.

Lemma strip_idem (p : ascii → bool) (s : string) :
  Str.strip p (Str.strip p s) = Str.strip p s.
Proof.
  unfold Str.strip. destruct (Str.lstrip p s) as [|c t] eqn:Ht; [done|].
  pose proof (lstrip_head _ _ _ _ Ht) as Hc.
  destruct (rstrip_keeps_head p c t Hc) as [r Hr]. rewrite Hr.
  assert (Str.lstrip p (String c r) = String c r) as -> by (simpl; by rewrite Hc).
  by rewrite <- Hr, rstrip_idem.
Qed.

Lemma strip_lstrip (p : ascii → bool) (s : string) :
  Str.strip p (Str.lstrip p s) = Str.strip p s.
Proof. unfold Str.strip. by rewrite lstrip_idem. Qed.

Lemma span_spec (p : ascii → bool) (s a b : string) :
  Str.span p s = (a, b) →
  s = a +:+ b ∧ all_chars p a = true
  ∧ match b with String c _ => p c = false | EmptyString => True end.
Proof.
  revert a. induction s as [|c s IH]; intros a H; simpl in H.
  - by simplify_eq.
  - destruct (p c) eqn:Hc.
    + destruct (Str.span p s) as [a0 b0]. simplify_eq.
      destruct (IH a0 eq_refl) as (-> & Ha & Hb).
      split_and!; [done| |done]. simpl. by rewrite Hc, Ha.
    + by simplify_eq.
Qed.

Lemma span_words (p : ascii → bool) (a : string) (c : ascii) (rest : string) :
  all_chars p a = true → p c = false →
  Str.span p (a +:+ String c rest) = (a, String c rest).
Proof.
  intros Ha Hc. induction a as [|x a IH]; ssimpl.
  - by rewrite Hc.
  - simpl in Ha. apply andb_prop in Ha as [Hx Ha].
    by rewrite Hx, (IH Ha).
Qed.

Lemma last_is_Some (c : ascii) (s : string) : is_Some (Str.last (String c s)).
Proof.
  revert c. induction s as [|x s IH]; intros c; [by eexists|]. apply (IH x).
Qed.

(** The second group stands for the whole text after the colon: both strip
    to the same value. *)
Lemma group2_strips_like_rest (line k group2 : string) :
  match_key_value line = Some (k, group2) →
  ∃ after,
    line = k +:+ String ":"%char after
    ∧ after ≠ EmptyString
    ∧ k ≠ EmptyString ∧ all_chars Str.is_word k = true
    ∧ Str.strip Str.is_space group2 = Str.strip Str.is_space after.
Proof.
  unfold match_key_value.
  destruct (Str.span Str.is_word line) as [a b] eqn:Hspan.
  apply span_spec in Hspan as (-> & Ha & _).
  destruct a as [|k0 key]; [done|].
  destruct b as [|c after]; [done|].
  destruct (decide (c = ":"%char)) as [->|Hc]; cycle 1.
  { destruct c as [[] [] [] [] [] [] [] []]; done. }
  destruct (Str.lstrip Str.is_space after) as [|x r] eqn:Hl.
  - destruct (Str.last after) as [y|] eqn:Hlast; [|done].
    intros ?; simplify_eq. exists after.
    split_and!; [done|by destruct after|done|done|].
    pose proof (lstrip_all _ _ Hl) as Hall.
    pose proof (last_all _ _ _ Hall Hlast) as Hy.
    unfold Str.strip. rewrite Hl. simpl. by rewrite Hy.
  - intros ?; simplify_eq. exists after.
    split_and!; [done|by destruct after|done|done|].
    by rewrite <- Hl, strip_lstrip.
Qed.

Lemma parse_value_strip (a b : string) :
  Str.strip Str.is_space a = Str.strip Str.is_space b →
  parse_value a = parse_value b.
Proof. unfold parse_value. by intros ->. Qed.

Lemma foldl_parse_line_last (lines : list string) (fm : frontmatter)
    (k : string) :
  foldl parse_line fm lines !! k
  = match last (values_for k lines) with
    | Some group2 => Some (parse_value group2)
    | None => fm !! k
    end.
Proof.
  revert fm. induction lines as [|l lines IH]; intros fm; [done|].
  cbn [foldl]. rewrite IH. unfold values_for. cbn [omap list_omap].
  fold (values_for k lines). unfold parse_line.
  destruct (match_key_value l) as [[k' v]|]; [|done].
  destruct (decide (k' = k)) as [->|Hne].
  - rewrite last_cons. destruct (last (values_for k lines)); [done|].
    by rewrite lookup_insert_eq.
  - destruct (last (values_for k lines)); [done|].
    by rewrite lookup_insert_ne.
Qed.

Lemma values_for_app (k : string) (a b : list string) :
  values_for k (a ++ b) = values_for k a ++ values_for k b.
Proof. unfold values_for. apply omap_app. Qed.

(** ** Lines of the form [key: value] *)

(** Such a line is matched with its key, and its second group is read like
    the text after the colon. *)
Lemma key_value_line_matched (line key after : string) :
  key_value_line line key after →
  ∃ group2, match_key_value line = Some (key, group2)
            ∧ parse_value group2 = parse_value after.
Proof.
  intros (Hk & Hw & Ha & ->). unfold match_key_value.
  rewrite span_words by done.
  destruct key as [|k0 key]; [done|].
  destruct (Str.lstrip Str.is_space after) as [|x r] eqn:Hl.
  - destruct after as [|y after']; [done|].
    destruct (last_is_Some y after') as [z Hlast]. rewrite Hlast.
    eexists. split; [done|]. apply parse_value_strip.
    pose proof (lstrip_all _ _ Hl) as Hall.
    pose proof (last_all _ _ _ Hall Hlast) as Hz.
    unfold Str.strip at 2. rewrite Hl. unfold Str.strip. simpl.
    by rewrite Hz.
  - eexists. split; [done|]. apply parse_value_strip.
    by rewrite <- Hl, strip_lstrip.
Qed.


Lemma values_for_key_value_line (k line after : string) :
  key_value_line line k after →
  ∃ group2, values_for k [line] = [group2]
            ∧ parse_value group2 = parse_value after.
Proof.
  intros (g & Hm & Hv)%key_value_line_matched. exists g. split; [|done].
  unfold values_for. cbn [omap list_omap]. rewrite Hm.
  by rewrite decide_True.
Qed.




(** Two delimiter lines with nothing between them are not a header for the
    pattern, which wants a line break before the closing line. *)
Example empty_header_not_recognised :
  parse_skill_frontmatter (fm_open +:+ fm_open +:+ "Body")
  = (None, fm_open +:+ fm_open +:+ "Body").
Proof. vm_compute. reflexivity. Qed.

(** C7 (list-value parsing).  The line [requires: [a, "b", 'c']] gives the
    key [requires] the list of the three names a, b, c in this order, both
    on its own and inside a document; in general a stripped value that
    opens and closes with brackets becomes the list of the comma-separated
    pieces of what stands between them, each stripped of whitespace and
    then of quotes. *)
Theorem list_value_parsing :
  parse_line ∅ requires_abc_line !! "requires" = Some (FList ["a"; "b"; "c"])
  ∧ (∀ body,
       requires_of (with_header [requires_abc_line] body) = ["a"; "b"; "c"])
  ∧ (∀ group2,
       let value := Str.strip Str.is_space group2 in
       Str.startswith "["%char value = true →
       Str.endswith "]"%char value = true →
       parse_value group2
       = FList ((fun s => Str.strip Str.is_quote (Str.strip Str.is_space s))
                  <$> Str.split ","%char (Str.inner value))).
Proof.
  split_and!.
  - vm_compute. reflexivity.
  - intros body. unfold requires_of.
    rewrite parse_with_header; [|done|].
    + vm_compute. reflexivity.
    + repeat constructor; done.
  - intros group2 value H1 H2. unfold parse_value. fold value.
    by rewrite H1, H2.
Qed.

Lemma list_value_parsing_demo :
  parse_value " ['x' , y] "
  = FList ((fun s => Str.strip Str.is_quote (Str.strip Str.is_space s))
             <$> Str.split ","%char
                   (Str.inner (Str.strip Str.is_space " ['x' , y] "))).
Proof.
  apply (proj2 (proj2 list_value_parsing) " ['x' , y] "); reflexivity.
Defined.

Lemma resolve_missing (skills_dir : store) (fuel : nat) (skill_name : string)
    (all_skills : list string) (st : rstate) :
  skill_name ∉ resolved st → skill_name ∉ resolving st →
  skills_dir !! skill_name = None →
  resolve_skill_dependencies skills_dir (S fuel) skill_name all_skills st
  = Some ([], st, []).
Proof.
  intros H1 H2 H3. simpl. by rewrite !decide_False, H3 by done.
Qed.

Lemma resolve_documented (skills_dir : store) (fuel : nat)
    (skill_name content : string) (all_skills : list string) (st : rstate) :
  skill_name ∉ resolved st → skill_name ∉ resolving st →
  skills_dir !! skill_name = Some content →
  resolve_skill_dependencies skills_dir (S fuel) skill_name all_skills st
  = match resolve_each
            (fun dep s =>
               resolve_skill_dependencies skills_dir fuel dep all_skills s)
            (requires_of content)
            (RState (resolved st) ({[skill_name]} ∪ resolving st)) with
    | None => None
    | Some (dependencies, st2, ev) =>
        Some (dependencies ++ [skill_name],
              RState ({[skill_name]} ∪ resolved st2)
                     (resolving st2 ∖ {[skill_name]}),
              ev)
    end.
Proof.
  intros H1 H2 H3. simpl. by rewrite !decide_False, H3 by done.
Qed.

(** C10 (an explicitly empty list).  The value [[]] parses to the list
    whose only item is the empty string, so a document whose header is the
    line [requires: []] has one requirement, named by the empty string; when
    no document has that name the resolver drops it without a diagnostic and
    the skill is resolved on its own. *)
Theorem empty_brackets_one_empty_name :
  parse_value "[]" = FList [""]
  ∧ (∀ body, requires_of (with_header ["requires: []"] body) = [""])
  ∧ (∀ (skills_dir : store) skill_name body,
       skills_dir !! skill_name = Some (with_header ["requires: []"] body) →
       skills_dir !! "" = None →
       all_skills_ordered skills_dir [skill_name] = Some ([skill_name], [])).
Proof.
  assert (Hreq : ∀ body, requires_of (with_header ["requires: []"] body) = [""]).
  { intros body. unfold requires_of.
    rewrite parse_with_header; [|done|repeat constructor; done].
    vm_compute. reflexivity. }
  split_and!; [vm_compute; reflexivity|done|].
  intros skills_dir name body Hdoc Hnone.
  assert (name ≠ "") as Hne by (intros ->; congruence).
  unfold all_skills_ordered, resolve_all, depth_bound.
  destruct (size skills_dir) as [|n] eqn:Hsize.
  { apply map_size_empty_iff in Hsize. subst. by rewrite lookup_empty in Hdoc. }
  rewrite (resolve_documented _ _ _ _ _ _ (not_elem_of_empty _)
             (not_elem_of_empty _) Hdoc).
  rewrite Hreq. cbn [resolve_each].
  rewrite resolve_missing; [|set_solver|set_solver|done].
  cbn [app merge_seen fst snd]. rewrite decide_False by set_solver. done.
Qed.

Lemma empty_brackets_demo :
  all_skills_ordered
    (<["solo" := with_header ["requires: []"] "Solo body"]> ∅) ["solo"]
  = Some (["solo"], []).
Proof.
  apply (proj2 (proj2 empty_brackets_one_empty_name)
           (<["solo" := with_header ["requires: []"] "Solo body"]> ∅)
           "solo" "Solo body"); reflexivity.
Defined.

(** * The assembler's calls and results *)

(** C2, as stated, fails: the assembler gives the resolver no sets, so each
    expansion starts from empty ones and a skill needed by two requested
    skills is expanded in both; with one pair of sets handed on from call to
    call the second expansion would not return it again. *)
Lemma shared_skill_resolved_twice :
  expansions shared_store ["x"; "y"] ["x"; "y"]
  = Some [["z"; "x"]; ["z"; "y"]]
  ∧ expansions_shared shared_store ["x"; "y"] ["x"; "y"] fresh
    = Some [["z"; "x"]; ["y"]]
  ∧ expansions shared_store ["x"; "y"] ["x"; "y"]
    ≠ expansions_shared shared_store ["x"; "y"] ["x"; "y"] fresh.
Proof. vm_compute. split_and!; [reflexivity|reflexivity|discriminate]. Qed.

(** C2, amended.  Every call the assembler makes starts the resolver from
    empty sets, which are shared only by the recursive calls below it; the
    global order is made of the first occurrences over the concatenated
    expansions, so a skill that several expansions return is kept once, where
    it first came, and the loading loop reads each name of the order once. *)
Theorem expansions_start_fresh (SKILLS_DIR : string) (skills_dir : store)
    (skills : list string) (o : options) :
  ∃ outs order ev,
    expansions skills_dir skills skills = Some outs
    ∧ Forall2 (fun skill out => ∃ st ev1,
                 resolve_skill_dependencies skills_dir (depth_bound skills_dir)
                   skill skills fresh = Some (out, st, ev1)) skills outs
    ∧ all_skills_ordered skills_dir skills = Some (order, ev)
    ∧ order = firsts ∅ (concat outs)
    ∧ NoDup order
    ∧ loaded_skills (load_skills SKILLS_DIR skills_dir o order) = order.
Proof.
  destruct (all_skills_ordered_spec skills_dir skills)
    as (outs & ev & H1 & H2 & Hexp).
  exists outs, (firsts ∅ (concat outs)), ev.
  split_and!; [done|by apply expansions_from_fresh|done|done|
               apply firsts_NoDup|].
  apply load_skills_documented. by eapply order_documented.
Qed.

Lemma expansions_start_fresh_shared :
  ∃ outs order ev,
    expansions shared_store ["x"; "y"] ["x"; "y"] = Some outs
    ∧ Forall2 (fun skill out => ∃ st ev1,
                 resolve_skill_dependencies shared_store
                   (depth_bound shared_store) skill ["x"; "y"] fresh
                 = Some (out, st, ev1)) ["x"; "y"] outs
    ∧ all_skills_ordered shared_store ["x"; "y"] = Some (order, ev)
    ∧ order = firsts ∅ (concat outs)
    ∧ NoDup order
    ∧ loaded_skills
        (load_skills home_skills shared_store (Options false false) order)
      = order.
Proof.
  apply (expansions_start_fresh home_skills shared_store ["x"; "y"]
           (Options false false)).
Defined.

(** ** What the resolver prints *)

Lemma resolve_each_circular (rec : string → rstate → answer)
    (reqs : list string) :
  (∀ dep st out st' ev, rec dep st = Some (out, st', ev) → circular_only ev) →
  ∀ st out st' ev,
    resolve_each rec reqs st = Some (out, st', ev) → circular_only ev.
Proof.
  intros Hrec. induction reqs as [|dep rest IH]; intros st out st' ev H;
    simpl in H.
  - simplify_eq. by intros d ?%elem_of_nil.
  - destruct (rec dep st) as [[[out1 st1] ev1]|] eqn:H1; [|done].
    destruct (resolve_each rec rest st1) as [[[out2 st2] ev2]|] eqn:H2;
      [|done].
    simplify_eq. intros d [?|?]%elem_of_app.
    + by eapply Hrec.
    + by eapply IH.
Qed.

Lemma resolve_circular (skills_dir : store) (all_skills : list string)
    (fuel : nat) :
  ∀ skill_name st out st' ev,
    resolve_skill_dependencies skills_dir fuel skill_name all_skills st
    = Some (out, st', ev) →
    circular_only ev.
Proof.
  induction fuel as [|fuel IH]; intros name st out st' ev H; [done|].
  simpl in H.
  destruct (decide (name ∈ resolved st)).
  { simplify_eq. by intros d ?%elem_of_nil. }
  destruct (decide (name ∈ resolving st)).
  { simplify_eq. intros d ->%list_elem_of_singleton. by eexists. }
  destruct (skills_dir !! name) as [content|].
  - destruct (resolve_each _ _ _) as [[[deps st2] ev2]|] eqn:Hloop; [|done].
    simplify_eq. eapply resolve_each_circular; [|exact Hloop]. exact IH.
  - simplify_eq. by intros d ?%elem_of_nil.
Qed.

Lemma resolve_all_circular (skills_dir : store) (todo all_skills : list string) :
  ∀ acc acc' ev,
    resolve_all skills_dir todo all_skills acc = Some (acc', ev) →
    circular_only ev.
Proof.
  induction todo as [|skill rest IH]; intros acc acc' ev H;
    cbn [resolve_all] in H.
  - simplify_eq. by intros d ?%elem_of_nil.
  - destruct (resolve_skill_dependencies _ _ skill _ _)
      as [[[out st] ev1]|] eqn:H1; [|done].
    destruct (resolve_all skills_dir rest all_skills _)
      as [[acc2 ev2]|] eqn:H2; [|done].
    simplify_eq. intros d [?|?]%elem_of_app.
    + by eapply resolve_circular.
    + by eapply IH.
Qed.

Lemma all_skills_ordered_circular (skills_dir : store)
    (skills order : list string) (ev : list diag) :
  all_skills_ordered skills_dir skills = Some (order, ev) → circular_only ev.
Proof.
  unfold all_skills_ordered.
  destruct (resolve_all skills_dir skills skills ([], ∅))
    as [[[ordered seen] ev']|] eqn:H; [|done].
  intros ?; simplify_eq. by eapply resolve_all_circular.
Qed.

(** ** The configuration and the whole run *)

Lemma load_skills_config_cases (p : project) :
  (∃ err, json_file p = Some (JSONDecodeError err)
          ∧ load_skills_config p = (Exit 1, [DiagConfigError err]))
  ∨ (∃ raw, json_file p = Some (JsonValue raw)
            ∧ load_skills_config p = (Raise AttributeError, []))
  ∨ (∃ c, load_skills_config p = (Return c, [])
          ∧ (∀ err, json_file p ≠ Some (JSONDecodeError err))
          ∧ (∀ raw, json_file p ≠ Some (JsonValue raw))).
Proof.
  unfold load_skills_config.
  destruct p as [[[err|skills_field raw|raw]|] [text|]]; simpl;
    first [left; by eexists
          | right; left; by eexists
          | right; right; by eexists ].
Qed.

(** The five ways a run can go. *)
Lemma run_cases (SKILLS_DIR : string) (skills_dir : store)
    (project_path : string) (p : project) (o : options) :
  let run := load_skills_for_project SKILLS_DIR skills_dir project_path p o in
  (∃ err, json_file p = Some (JSONDecodeError err)
          ∧ run = Some (Exit 1, [DiagConfigError err]))
  ∨ (∃ raw, json_file p = Some (JsonValue raw)
            ∧ run = Some (Raise AttributeError, []))
  ∨ (load_skills_config p = (Return None, [])
     ∧ run = Some (Return (if opt_json o
                           then RJsonError "No skills configuration found"
                           else RText EmptyString),
                   quiet o DiagNoConfig))
  ∨ (∃ cfg, load_skills_config p = (Return (Some cfg), [])
            ∧ cfg_skills cfg = []
            ∧ run = Some (Return (if opt_json o
                                  then RJsonError "No active skills"
                                  else RText EmptyString),
                          quiet o DiagNoActive))
  ∨ (∃ cfg order ev,
       load_skills_config p = (Return (Some cfg), [])
       ∧ cfg_skills cfg ≠ []
       ∧ all_skills_ordered skills_dir (cfg_skills cfg) = Some (order, ev)
       ∧ run = Some (Return
                       (if opt_json o then
                          RJsonReport
                            (Report (Path.str (Path.of_string project_path))
                               cfg order []
                               (skills_metadata
                                  (load_skills SKILLS_DIR skills_dir o order)))
                        else RText (Str.join separator
                                      (skill_body skills_dir <$> order))),
                     ev ++ (if opt_silent o then []
                            else if bool_decide (order = []) then []
                                 else [DiagLoaded order]))).
Proof.
  intros run. subst run. unfold load_skills_for_project.
  destruct (load_skills_config_cases p)
    as [(err & Hj & ->)|[(raw & Hj & ->)|(c & -> & Hok)]].
  { left. by exists err. }
  { right. left. by exists raw. }
  do 2 right. destruct c as [cfg|]; [|by left].
  right. destruct (cfg_skills cfg) as [|s0 rest] eqn:Hskills.
  { left. by exists cfg. }
  right.
  destruct (all_skills_ordered_spec skills_dir (s0 :: rest))
    as (outs & ev & _ & Hord & _).
  exists cfg, (firsts ∅ (concat outs)), ev. rewrite Hskills, Hord.
  destruct (load_skills_documented SKILLS_DIR skills_dir o
              (firsts ∅ (concat outs))) as (Hl & Hm & Hc).
  { by eapply order_documented. }
  split_and!; [done|done|done|].
  unfold report_diags. rewrite Hl, Hm, Hc. simpl.
  do 3 f_equal. destruct (opt_silent o); [done|]. by rewrite app_nil_r.
Qed.

(** X13.  The list of missing skills stays empty on every run, and no
    diagnostic names a missing skill: the resolver returns only names that
    have a document, so the branch of line 212 is dead. *)
Lemma missing_list_always_empty (SKILLS_DIR : string) (skills_dir : store)
    (project_path : string) (p : project) (o : options)
    (out : outcome result) (ev : list diag) :
  load_skills_for_project SKILLS_DIR skills_dir project_path p o
  = Some (out, ev) →
  (∀ r, out = Return (RJsonReport r) → rep_missingSkills r = [])
  ∧ (∀ names, DiagMissing names ∉ ev).
Proof.
  intros Hrun.
  destruct (run_cases SKILLS_DIR skills_dir project_path p o)
    as [(err & _ & H)|[(raw & _ & H)|[(_ & H)|[(cfg & _ & _ & H)|
        (cfg & order & evr & _ & _ & Hord & H)]]]];
    rewrite H in Hrun; simplify_eq.
  - split; [done|]. intros names ?%list_elem_of_singleton. done.
  - split; [done|]. by intros names ?%elem_of_nil.
  - split; [intros r Hr; by destruct (opt_json o)|].
    intros names. unfold quiet. destruct (opt_silent o); set_solver.
  - split; [intros r Hr; by destruct (opt_json o)|].
    intros names. unfold quiet. destruct (opt_silent o); set_solver.
  - split; [intros r Hr; destruct (opt_json o); by simplify_eq|].
    intros names [Hin|Hin]%elem_of_app.
    + apply (all_skills_ordered_circular _ _ _ _ Hord) in Hin as [? ?]. done.
    + destruct (opt_silent o); [set_solver|].
      case_bool_decide; set_solver.
Qed.

(** C1 fails on the code.  The project asks for [real] and [ghost]; only
    [real] has a document.  The report lists [real] as loaded and lists no
    missing skill at all, and no diagnostic mentions [ghost]: the resolver
    has already dropped it (lines 121-123), so the loading loop never sees
    it. *)
Theorem missing_skill_not_reported :
  load_skills_for_project home_skills ghost_store "/p" ghost_project
    (Options true false)
  = Some (Return
            (RJsonReport
               (Report "/p" (Config ["real"; "ghost"] FormatText None)
                  ["real"] []
                  [SkillInfo "real" "/home/u/.claude/skills/real.md" None 9])),
          [DiagLoaded ["real"]]).
Proof. vm_compute. reflexivity. Qed.


(** The malformed configuration, run: exit code 1, the parse error on
    stderr, and the text file next to it is not consulted. *)
Example malformed_project_run :
  load_skills_for_project home_skills cyclic_store "/p" malformed_project
    (Options false false)
  = Some (Exit 1,
          [DiagConfigError "Expecting value: line 1 column 1 (char 0)"]).
Proof. vm_compute. reflexivity. Qed.

(** C9, as stated, fails in plain-text mode: a configuration that names no
    skill and a missing configuration both return the empty text, and with
    [--silent] nothing at all tells them apart. *)
Lemma empty_list_same_as_absent_in_text_mode :
  load_skills_for_project home_skills ghost_store "/p" empty_project
    (Options false true)
  = Some (Return (RText EmptyString), [])
  ∧ load_skills_for_project home_skills ghost_store "/p" absent_project
      (Options false true)
    = Some (Return (RText EmptyString), [])
  ∧ load_skills_for_project home_skills ghost_store "/p" empty_project
      (Options false true)
    = load_skills_for_project home_skills ghost_store "/p" absent_project
        (Options false true).
Proof. vm_compute. split_and!; reflexivity. Qed.

(** C9, amended.  A configuration that names no skill and a missing
    configuration both make the run return normally.  In structured-report
    mode the two results are different error objects; in plain-text mode
    both are the empty text.  Unless silenced, the two runs print different
    warnings. *)
Theorem empty_list_versus_absent (SKILLS_DIR : string) (skills_dir : store)
    (project_path : string) (p_absent p_empty : project) (cfg : config)
    (o : options) :
  load_skills_config p_absent = (Return None, []) →
  load_skills_config p_empty = (Return (Some cfg), []) →
  cfg_skills cfg = [] →
  ∃ r_absent ev_absent r_empty ev_empty,
    load_skills_for_project SKILLS_DIR skills_dir project_path p_absent o
    = Some (Return r_absent, ev_absent)
    ∧ load_skills_for_project SKILLS_DIR skills_dir project_path p_empty o
      = Some (Return r_empty, ev_empty)
    ∧ (opt_json o = true →
         r_absent = RJsonError "No skills configuration found"
         ∧ r_empty = RJsonError "No active skills"
         ∧ r_absent ≠ r_empty)
    ∧ (opt_json o = false →
         r_absent = RText EmptyString ∧ r_empty = RText EmptyString)
    ∧ (opt_silent o = false →
         ev_absent = [DiagNoConfig] ∧ ev_empty = [DiagNoActive])
    ∧ (opt_silent o = true → ev_absent = [] ∧ ev_empty = []).
Proof.
  intros Ha He Hs. unfold load_skills_for_project. rewrite Ha, He, Hs.
  eexists _, _, _, _. split_and!; [reflexivity|reflexivity| | | |].
  - intros ->. by split_and!.
  - by intros ->.
  - unfold quiet. by intros ->.
  - unfold quiet. by intros ->.
Qed.

Lemma empty_list_versus_absent_json :
  ∃ r_absent ev_absent r_empty ev_empty,
    load_skills_for_project home_skills ghost_store "/p" absent_project
      (Options true false)
    = Some (Return r_absent, ev_absent)
    ∧ load_skills_for_project home_skills ghost_store "/p" empty_project
        (Options true false)
      = Some (Return r_empty, ev_empty)
    ∧ (opt_json (Options true false) = true →
         r_absent = RJsonError "No skills configuration found"
         ∧ r_empty = RJsonError "No active skills"
         ∧ r_absent ≠ r_empty)
    ∧ (opt_json (Options true false) = false →
         r_absent = RText EmptyString ∧ r_empty = RText EmptyString)
    ∧ (opt_silent (Options true false) = false →
         ev_absent = [DiagNoConfig] ∧ ev_empty = [DiagNoActive])
    ∧ (opt_silent (Options true false) = true →
         ev_absent = [] ∧ ev_empty = []).
Proof.
  apply (empty_list_versus_absent home_skills ghost_store "/p"
           absent_project empty_project (Config [] FormatText None)
           (Options true false)); reflexivity.
Defined.

(** The end-to-end scenario of the specification: [x] comes first and once,
    and the text joins the two bodies with the separator. *)
Example scenario_run :
  load_skills_for_project home_skills scenario_store "/p"
    (Project None (Some "x
y
")) (Options false false)
  = Some (Return (RText ("X body" +:+ separator +:+ "Y body")),
          [DiagLoaded ["x"; "y"]]).
Proof. vm_compute. reflexivity. Qed.

(** * Further properties of the parser *)

(** ** Where the header ends *)

Lemma cut_shortest (sep s a b : string) :
  Str.cut sep s = Some (a, b) →
  ∀ a' b', s = a' +:+ sep +:+ b' → (String.length a ≤ String.length a')%nat.
Proof.
  revert a. induction s as [|c s IH]; intros a H a' b' Heq; simpl in H.
  - destruct (Str.strip_prefix sep "") as [r|]; [|done].
    simplify_eq. simpl. lia.
  - destruct (Str.strip_prefix sep (String c s)) as [r|] eqn:Hp.
    { simplify_eq. simpl. lia. }
    destruct (Str.cut sep s) as [[a0 b0]|] eqn:Hc; [|done]. simplify_eq.
    destruct a' as [|x a']; ssimpl_in Heq.
    + rewrite Heq, strip_prefix_app in Hp. done.
    + injection Heq as -> Heq. simpl.
      specialize (IH a0 eq_refl a' b' Heq). lia.
Qed.

Lemma parse_header_text (content body : string) (fm : frontmatter) :
  parse_skill_frontmatter content = (Some fm, body) →
  ∃ header_text,
    content = fm_open +:+ header_text +:+ fm_close +:+ body
    ∧ fm = parse_lines (Str.split Str.nl header_text).
Proof.
  unfold parse_skill_frontmatter.
  destruct (Str.strip_prefix fm_open content) as [rest|] eqn:Hp; [|done].
  destruct (Str.cut fm_close rest) as [[a b]|] eqn:Hc; [|done].
  intros ?; simplify_eq. exists a.
  apply strip_prefix_Some in Hp.
  split; [by rewrite Hp, (cut_Some _ _ _ _ Hc)|done].
Qed.

(** X1.  When a header is found, the text is the opening line, the header
    text, the closing line and the returned body, in this order; the mapping
    is read from the lines of the header text; and the header ends at the
    first closing line: no other way of cutting the text at a closing line
    gives a shorter header. *)
Theorem header_ends_at_first_closing_line (content body : string)
    (fm : frontmatter) :
  parse_skill_frontmatter content = (Some fm, body) →
  ∃ header_text,
    content = fm_open +:+ header_text +:+ fm_close +:+ body
    ∧ fm = parse_lines (Str.split Str.nl header_text)
    ∧ ∀ header_text' body',
        content = fm_open +:+ header_text' +:+ fm_close +:+ body' →
        (String.length header_text ≤ String.length header_text')%nat.
Proof.
  unfold parse_skill_frontmatter.
  destruct (Str.strip_prefix fm_open content) as [rest|] eqn:Hp; [|done].
  destruct (Str.cut fm_close rest) as [[a b]|] eqn:Hc; [|done].
  intros ?; simplify_eq. exists a.
  apply strip_prefix_Some in Hp.
  split_and!; [by rewrite Hp, (cut_Some _ _ _ _ Hc)|done|].
  intros a' b' Heq. eapply cut_shortest; [exact Hc|].
  rewrite Hp in Heq. by apply (inj (String.app fm_open)) in Heq.
Qed.

Lemma header_ends_at_first_closing_line_demo :
  ∃ header_text,
    with_header ["a: 1"] ("text" +:+ fm_close +:+ "more")
    = fm_open +:+ header_text +:+ fm_close
        +:+ ("text" +:+ fm_close +:+ "more")
    ∧ parse_lines ["a: 1"] = parse_lines (Str.split Str.nl header_text)
    ∧ ∀ header_text' body',
        with_header ["a: 1"] ("text" +:+ fm_close +:+ "more")
        = fm_open +:+ header_text' +:+ fm_close +:+ body' →
        (String.length header_text ≤ String.length header_text')%nat.
Proof.
  apply (header_ends_at_first_closing_line
           (with_header ["a: 1"] ("text" +:+ fm_close +:+ "more"))
           ("text" +:+ fm_close +:+ "more") (parse_lines ["a: 1"])).
  vm_compute. reflexivity.
Defined.

(** ** Which line gives a key its value *)

(** X2.  In the parsed header a key holds the value of the last line that
    matches with this key, and has no entry when no line does; lines that
    do not match change nothing. *)
Theorem last_line_for_a_key_wins (lines : list string) (body k : string) :
  lines ≠ [] → Forall header_line lines →
  ∃ fm,
    parse_skill_frontmatter (with_header lines body) = (Some fm, body)
    ∧ fm !! k = parse_value <$> last (values_for k lines).
Proof.
  intros Hne Hall. exists (parse_lines lines).
  split; [by apply parse_with_header|].
  unfold parse_lines. rewrite foldl_parse_line_last, lookup_empty.
  by destruct (last (values_for k lines)).
Qed.

Lemma last_line_for_a_key_wins_demo :
  ∃ fm,
    parse_skill_frontmatter
      (with_header ["requires: a"; "# note"; "requires: b"] "Body")
    = (Some fm, "Body")
    ∧ fm !! "requires"
      = parse_value
          <$> last (values_for "requires"
                      ["requires: a"; "# note"; "requires: b"]).
Proof.
  apply (last_line_for_a_key_wins
           ["requires: a"; "# note"; "requires: b"] "Body" "requires").
  - done.
  - repeat constructor; done.
Defined.

(** ** The shape of a line that gives an entry *)

(** X3.  A line gives an entry exactly when it is a non-empty run of word
    characters, a colon and at least one more character; the entry is then
    the value read from everything after the colon.  So [key:] alone gives
    nothing, and a key with a dash or with a space before the colon gives
    nothing either. *)
Theorem line_gives_entry_iff (fm : frontmatter) (line : string) :
  (∀ k after,
     k ≠ EmptyString → all_chars Str.is_word k = true →
     after ≠ EmptyString →
     parse_line fm (k +:+ String ":"%char after)
     = <[k := parse_value after]> fm)
  ∧ ((∀ k after,
        k ≠ EmptyString → all_chars Str.is_word k = true →
        after ≠ EmptyString → line ≠ k +:+ String ":"%char after) →
     parse_line fm line = fm).
Proof.
  split.
  - intros k after Hk Hw Ha. unfold parse_line, match_key_value.
    rewrite span_words by done.
    destruct k as [|k0 key]; [done|].
    destruct (Str.lstrip Str.is_space after) as [|x r] eqn:Hl.
    + destruct after as [|y after']; [done|].
      destruct (last_is_Some y after') as [z Hlast]. rewrite Hlast.
      f_equal. apply parse_value_strip.
      pose proof (lstrip_all _ _ Hl) as Hall.
      pose proof (last_all _ _ _ Hall Hlast) as Hz.
      unfold Str.strip at 2. rewrite Hl. unfold Str.strip. simpl.
      by rewrite Hz.
    + f_equal. apply parse_value_strip. by rewrite <- Hl, strip_lstrip.
  - intros Hno. unfold parse_line.
    destruct (match_key_value line) as [[k v]|] eqn:Hm; [|done].
    apply group2_strips_like_rest in Hm as (after & -> & ? & ? & ? & _).
    by destruct (Hno k after).
Qed.

Lemma line_gives_entry_iff_demo :
  parse_line ∅ ("name" +:+ String ":"%char "   ")
  = <["name" := parse_value "   "]> ∅.
Proof.
  apply (proj1 (line_gives_entry_iff ∅ "") "name" "   "); done.
Defined.

(** Text after a colon that is only whitespace gives the empty string. *)
Example whitespace_value_is_empty : parse_value "   " = FStr "".
Proof. reflexivity. Qed.

(** X4.  Every key of a parsed header is a non-empty run of word
    characters, and every plain value is free of whitespace at both ends. *)
Theorem keys_are_words_values_stripped (content body : string)
    (fm : frontmatter) (k : string) (val : fm_value) :
  parse_skill_frontmatter content = (Some fm, body) →
  fm !! k = Some val →
  k ≠ EmptyString ∧ all_chars Str.is_word k = true
  ∧ ∀ s, val = FStr s → Str.strip Str.is_space s = s.
Proof.
  intros Hparse Hk.
  apply parse_header_text in Hparse as (text & _ & ->).
  apply parse_lines_origin in Hk as [Hk|(l & v & _ & Hm & ->)].
  { by rewrite lookup_empty in Hk. }
  apply group2_strips_like_rest in Hm as (after & _ & _ & ? & ? & _).
  split_and!; [done|done|].
  intros s. unfold parse_value.
  destruct (_ && _); [done|]. intros ?; simplify_eq. apply strip_idem.
Qed.

Lemma keys_are_words_values_stripped_demo :
  "name" ≠ EmptyString ∧ all_chars Str.is_word "name" = true
  ∧ ∀ s, FStr "demo" = FStr s → Str.strip Str.is_space s = s.
Proof.
  apply (keys_are_words_values_stripped
           (with_header ["name:  demo  "] "Body") "Body"
           (parse_lines ["name:  demo  "]) "name" (FStr "demo"));
    vm_compute; reflexivity.
Defined.

(** ** Bracketed lists *)

Lemma lstrip_fixed (p : ascii → bool) (c : ascii) (s : string) :
  p c = false → Str.lstrip p (String c s) = String c s.
Proof. intros H. simpl. by rewrite H. Qed.

Lemma lstrip_skip (p : ascii → bool) (c : ascii) (s : string) :
  p c = true → Str.lstrip p (String c s) = Str.lstrip p s.
Proof. intros H. simpl. by rewrite H. Qed.

Lemma rstrip_fixed (p : ascii → bool) (s : string) (c : ascii) :
  Str.last s = Some c → p c = false → Str.rstrip p s = s.
Proof.
  induction s as [|x s IH]; [done|]. intros Hlast Hc. rewrite rstrip_cons.
  destruct s as [|y s].
  - simpl in *. simplify_eq. by rewrite Hc.
  - rewrite (IH Hlast Hc). done.
Qed.

Lemma last_snoc_char (s : string) (c : ascii) :
  Str.last (s +:+ String c EmptyString) = Some c.
Proof.
  induction s as [|x s IH]; ssimpl; [done|].
  destruct (s +:+ String c "") eqn:E; [by destruct s|]. done.
Qed.

Lemma drop_last_snoc_char (s : string) (c : ascii) :
  Str.drop_last (s +:+ String c EmptyString) = s.
Proof.
  induction s as [|x s IH]; ssimpl; [done|].
  destruct (s +:+ String c "") eqn:E; [by destruct s|].
  by rewrite <- IH.
Qed.

Lemma split_lacks (c : ascii) (s : string) :
  lacks c s = true → Str.split c s = [s].
Proof.
  induction s as [|x s IH]; [done|]. unfold lacks. simpl.
  intros [Hx Hs]%andb_prop. apply negb_true_iff, bool_decide_eq_false in Hx.
  by rewrite decide_False, (IH Hs).
Qed.

Lemma split_item (c : ascii) (item rest : string) :
  lacks c item = true →
  Str.split c (item +:+ String c rest) = item :: Str.split c rest.
Proof.
  induction item as [|x s IH]; ssimpl.
  - intros _. by rewrite decide_True.
  - unfold lacks. simpl. intros [Hx Hs]%andb_prop.
    apply negb_true_iff, bool_decide_eq_false in Hx.
    by rewrite decide_False, (IH Hs).
Qed.

Lemma split_join_items (items : list string) :
  Forall (fun i => lacks ","%char i = true) items →
  Str.split ","%char (Str.join ", " items)
  = match items with
    | [] => [EmptyString]
    | i :: rest => i :: (String " "%char <$> rest)
    end.
Proof.
  induction items as [|i rest IH]; intros Hall; [done|].
  apply Forall_cons in Hall as [Hi Hall].
  destruct rest as [|i2 rest]; [by apply split_lacks|].
  specialize (IH Hall).
  change (Str.join ", " (i :: i2 :: rest))
    with (i +:+ ", " +:+ Str.join ", " (i2 :: rest)).
  remember (Str.join ", " (i2 :: rest)) as J eqn:HJ.
  rewrite sapp_cons, (split_item _ _ _ Hi), sapp_cons, sapp_nil_l.
  cbn [Str.split]. rewrite decide_False by done. by rewrite IH.
Qed.

Lemma parse_bracketed (items : list string) :
  items ≠ [] → Forall plain_item items →
  parse_value (bracketed items) = FList items.
Proof.
  intros Hne Hall. unfold parse_value, bracketed.
  assert (Str.strip Str.is_space (String "[" (Str.join ", " items +:+ "]"))
          = String "[" (Str.join ", " items +:+ "]")) as ->.
  { unfold Str.strip. rewrite lstrip_fixed by reflexivity.
    apply (rstrip_fixed _ _ "]"%char); [|reflexivity].
    change (Str.last (String "[" (Str.join ", " items +:+ "]")))
      with (Str.last (String "[" (Str.join ", " items) +:+ "]")).
    apply last_snoc_char. }
  assert (Str.endswith "]" (String "[" (Str.join ", " items +:+ "]")) = true)
    as ->.
  { unfold Str.endswith.
    change (Str.last (String "[" (Str.join ", " items +:+ "]")))
      with (Str.last (String "[" (Str.join ", " items) +:+ "]")).
    by rewrite last_snoc_char. }
  cbn [Str.startswith andb Str.inner]. rewrite bool_decide_eq_true_2 by done.
  rewrite drop_last_snoc_char, split_join_items
    by (eapply Forall_impl; [exact Hall|]; by intros ? [? _]).
  destruct items as [|i rest]; [done|]. f_equal.
  apply Forall_cons in Hall as [(_ & Hs & Hq) Hall]. cbn [fmap list_fmap].
  rewrite Hs, Hq. f_equal.
  induction Hall as [|j rest' (_ & Hjs & Hjq) _ IH]; [done|].
  cbn [fmap list_fmap]. f_equal; [|apply IH; done].
  assert (Str.strip Str.is_space (String " " j) = Str.strip Str.is_space j)
    as ->.
  { unfold Str.strip. by rewrite lstrip_skip by reflexivity. }
  by rewrite Hjs, Hjq.
Qed.

(** X5.  A bracketed list of plain items (no comma inside, no whitespace
    and no quote at either end), written with a comma and a space between
    the items, is read back as exactly these items; the list must have at
    least one item, since nothing between the brackets reads as one empty
    item. *)
Theorem bracketed_list_round_trip (items : list string) :
  items ≠ [] → Forall plain_item items →
  parse_value (bracketed items) = FList items.
Proof. apply parse_bracketed. Qed.

Lemma bracketed_list_round_trip_demo :
  parse_value (bracketed ["core"; "git-flow"; "x y"])
  = FList ["core"; "git-flow"; "x y"].
Proof.
  apply (bracketed_list_round_trip ["core"; "git-flow"; "x y"]).
  - done.
  - repeat constructor; reflexivity.
Defined.

(** ** From a header line to the requirements *)

Lemma no_newline_app (a b : string) :
  Str.no_newline (a +:+ b) = Str.no_newline a && Str.no_newline b.
Proof.
  induction a as [|c a IH]; ssimpl; [done|]. by case_decide.
Qed.

Lemma no_newline_join (sep : string) (items : list string) :
  Str.no_newline sep = true →
  Forall (fun i => Str.no_newline i = true) items →
  Str.no_newline (Str.join sep items) = true.
Proof.
  intros Hsep. induction 1 as [|i rest Hi Hrest IH]; [done|].
  destruct rest as [|i2 rest]; [done|].
  change (Str.join sep (i :: i2 :: rest))
    with (i +:+ sep +:+ Str.join sep (i2 :: rest)).
  by rewrite !no_newline_app, Hi, Hsep, IH.
Qed.

Lemma requires_line_read (pre post : list string) (after body : string) :
  Forall header_line pre → Forall header_line post →
  Str.no_newline after = true → after ≠ EmptyString →
  values_for "requires" post = [] →
  requires_of (with_header (pre ++ ("requires" +:+ String ":" after) :: post) body)
  = match parse_value after with
    | FList items => items
    | FStr s => [s]
    end.
Proof.
  intros Hpre Hpost Hnl Hne Hnone. unfold requires_of.
  rewrite parse_with_header; cycle 1.
  { by destruct pre. }
  { apply Forall_app. split; [done|]. constructor; [|done]. split; [|done].
    rewrite no_newline_app. simpl. by rewrite Hnl. }
  cbn [fst requires_of_frontmatter]. unfold parse_lines.
  rewrite foldl_parse_line_last, values_for_app.
  change (("requires" +:+ String ":" after) :: post)
    with ([("requires" +:+ String ":" after)] ++ post).
  rewrite (values_for_app _ [_] post), Hnone, app_nil_r.
  destruct (values_for_key_value_line "requires"
              ("requires" +:+ String ":" after) after) as (g & -> & Hv).
  { by split_and!. }
  by rewrite last_snoc, Hv.
Qed.

(** X6.  What a document declares is what the resolver is given.  A header
    whose last [requires] line holds a bracketed list of plain items yields
    exactly these items, and one whose last [requires] line holds a single
    name (not empty, no whitespace at either end, not itself bracketed)
    yields the one-element list of that name; lines before it, and lines
    after it with other keys, make no difference. *)
Theorem declared_requirements_read_back (pre post : list string)
    (body : string) :
  Forall header_line pre → Forall header_line post →
  values_for "requires" post = [] →
  (∀ items,
     items ≠ [] → Forall plain_item items →
     Forall (fun i => Str.no_newline i = true) items →
     requires_of
       (with_header (pre ++ ("requires: " +:+ bracketed items) :: post) body)
     = items)
  ∧ (∀ name,
       name ≠ EmptyString → Str.no_newline name = true →
       Str.strip Str.is_space name = name →
       Str.startswith "["%char name && Str.endswith "]"%char name = false →
       requires_of (with_header (pre ++ ("requires: " +:+ name) :: post) body)
       = [name]).
Proof.
  intros Hpre Hpost Hnone. split.
  - intros items Hne Hplain Hnl.
    change ("requires: " +:+ bracketed items)
      with ("requires" +:+ String ":" (String " " (bracketed items))).
    rewrite requires_line_read; try done; cycle 1.
    { change (Str.no_newline (Str.join ", " items +:+ "]") = true).
      rewrite no_newline_app, no_newline_join; done. }
    assert (parse_value (String " " (bracketed items))
            = parse_value (bracketed items)) as ->.
    { apply parse_value_strip. unfold Str.strip.
      by rewrite lstrip_skip by reflexivity. }
    by rewrite parse_bracketed.
  - intros name Hne Hnl Hstrip Hbr.
    change ("requires: " +:+ name)
      with ("requires" +:+ String ":" (String " " name)).
    rewrite requires_line_read by done.
    unfold parse_value.
    assert (Str.strip Str.is_space (String " " name) = name) as ->.
    { rewrite <- Hstrip at 2. unfold Str.strip.
      by rewrite lstrip_skip by reflexivity. }
    by rewrite Hbr.
Qed.

Lemma declared_requirements_read_back_demo :
  requires_of
    (with_header (["name: demo"]
                    ++ ("requires: " +:+ bracketed ["core"; "git-flow"])
                    :: ["description: text"]) "Body")
  = ["core"; "git-flow"]
  ∧ requires_of
      (with_header (["name: demo"] ++ ("requires: " +:+ "git-flow")
                      :: ["description: text"]) "Body")
    = ["git-flow"].
Proof.
  destruct (declared_requirements_read_back
              ["name: demo"] ["description: text"] "Body") as [Hl Hs].
  - repeat constructor; done.
  - repeat constructor; done.
  - reflexivity.
  - split.
    + apply (Hl ["core"; "git-flow"]).
      * done.
      * repeat constructor; reflexivity.
      * repeat constructor; reflexivity.
    + apply (Hs "git-flow"); reflexivity || done.
Defined.


(** * Further properties of the configuration loader *)

Lemma no_newline_lstrip (p : ascii → bool) (s : string) :
  Str.no_newline s = true → Str.no_newline (Str.lstrip p s) = true.
Proof.
  induction s as [|c s IH]; [done|]. intros H. simpl.
  destruct (p c); [|done]. simpl in H. case_decide; [done|]. by apply IH.
Qed.

Lemma no_newline_rstrip (p : ascii → bool) (s : string) :
  Str.no_newline s = true → Str.no_newline (Str.rstrip p s) = true.
Proof.
  induction s as [|c s IH]; [done|]. intros H. rewrite rstrip_cons.
  simpl in H. case_decide as Hc; [done|]. specialize (IH H).
  destruct (Str.rstrip p s) as [|y r].
  - destruct (p c); [done|]. simpl. by rewrite decide_False.
  - cbn [Str.no_newline]. by rewrite decide_False.
Qed.

(** What holds of every character still holds after stripping and after
    splitting. *)
Lemma all_chars_lstrip (q p : ascii → bool) (s : string) :
  all_chars q s = true → all_chars q (Str.lstrip p s) = true.
Proof.
  induction s as [|c s IH]; [done|]. intros H. simpl.
  destruct (p c); [|done]. apply andb_prop in H as [_ H]. by apply IH.
Qed.

Lemma all_chars_rstrip (q p : ascii → bool) (s : string) :
  all_chars q s = true → all_chars q (Str.rstrip p s) = true.
Proof.
  induction s as [|c s IH]; [done|]. intros [Hc Hs]%andb_prop.
  rewrite rstrip_cons. specialize (IH Hs).
  destruct (Str.rstrip p s) as [|y r].
  - destruct (p c); [done|]. simpl. by rewrite Hc.
  - change (q c && all_chars q (String y r) = true). by rewrite Hc, IH.
Qed.

Lemma all_chars_split (q : ascii → bool) (sep : ascii) (s l : string) :
  all_chars q s = true → l ∈ Str.split sep s → all_chars q l = true.
Proof.
  revert l. induction s as [|c s IH]; intros l Hs; simpl.
  - by intros ->%list_elem_of_singleton.
  - apply andb_prop in Hs as [Hc Hs]. case_decide.
    + intros [->|?]%elem_of_cons; [done|by apply IH].
    + destruct (Str.split sep s) as [|h t] eqn:E.
      * intros ->%list_elem_of_singleton. simpl. by rewrite Hc.
      * intros [->|?]%elem_of_cons.
        -- simpl. rewrite Hc. apply IH; [done|set_solver].
        -- apply IH; [done|set_solver].
Qed.

(** ** Line ends *)

(** No carriage return is left in a text that was read. *)
Lemma universal_newlines_lacks_cr (s : string) :
  lacks Str.cr (Str.universal_newlines s) = true.
Proof.
  assert (∀ s, lacks Str.cr (Str.universal_newlines s) = true
               ∧ ∀ c, lacks Str.cr (Str.universal_newlines (String c s)) = true)
    as Hboth; [|apply Hboth].
  clear s. induction s as [|c' s [IH1 IH2]].
  - split; [done|]. intros c. cbn [Str.universal_newlines].
    by case_decide as Hc; [|unfold lacks; simpl; rewrite bool_decide_eq_false_2].
  - split; [apply IH2|]. intros c. cbn [Str.universal_newlines].
    fold (Str.universal_newlines (String c' s)).
    case_decide as Hc.
    + unfold lacks. cbn [all_chars negb]. rewrite bool_decide_eq_false_2 by done.
      case_decide; [apply IH1|apply IH2].
    + unfold lacks. cbn [all_chars]. rewrite bool_decide_eq_false_2 by done.
      apply IH2.
Qed.

(** A line without a carriage return is read as it is. *)
Lemma universal_newlines_line (l rest : string) :
  lacks Str.cr l = true →
  Str.universal_newlines (l +:+ rest) = l +:+ Str.universal_newlines rest.
Proof.
  induction l as [|c l IH]; [done|]. unfold lacks. cbn [all_chars].
  intros [Hc Hl]%andb_prop. apply negb_true_iff, bool_decide_eq_false in Hc.
  rewrite !sapp_cons. cbn [Str.universal_newlines].
  rewrite decide_False by done. f_equal. by apply IH.
Qed.

(** A carriage return that no line feed follows is read as a line feed. *)
Lemma universal_newlines_cr (rest : string) :
  Str.startswith Str.nl rest = false →
  Str.universal_newlines (String Str.cr rest)
  = String Str.nl (Str.universal_newlines rest).
Proof.
  intros H. cbn [Str.universal_newlines]. rewrite decide_True by done.
  destruct rest as [|c rest]; [done|].
  simpl in H. apply bool_decide_eq_false in H. by rewrite decide_False.
Qed.

Lemma unlines_start (lines : list string) :
  Forall (fun l => Str.no_newline l = true) lines →
  Str.startswith Str.nl (unlines (String Str.cr EmptyString) lines) = false.
Proof.
  intros Hall. destruct Hall as [|l rest Hl _]; [done|].
  cbn [unlines]. destruct l as [|c l]; [done|].
  simpl in Hl. case_decide as Hc; [done|].
  rewrite sapp_cons. simpl. by apply bool_decide_eq_false.
Qed.

(** Whichever of the three line ends a file uses, it is read as the same
    lines ended by line feeds. *)
Lemma universal_newlines_unlines (ending : string) (lines : list string) :
  line_end ending →
  Forall (fun l => Str.no_newline l = true ∧ lacks Str.cr l = true) lines →
  Str.universal_newlines (unlines ending lines)
  = unlines (String Str.nl EmptyString) lines.
Proof.
  intros Hend Hall. induction Hall as [|l rest [Hnl Hcr] Hrest IH]; [done|].
  cbn [unlines]. rewrite (universal_newlines_line _ _ Hcr). f_equal.
  destruct Hend as [-> | [-> | ->]].
  - rewrite !sapp_cons, !sapp_nil_l. cbn [Str.universal_newlines].
    rewrite decide_False by done. f_equal. exact IH.
  - rewrite !sapp_cons, !sapp_nil_l. cbn [Str.universal_newlines].
    rewrite !decide_True by done. f_equal. exact IH.
  - rewrite !sapp_cons, !sapp_nil_l. rewrite universal_newlines_cr.
    + f_equal. exact IH.
    + apply unlines_start.
      eapply Forall_impl; [exact Hrest|]. by intros ? [? _].
Qed.

Lemma split_unlines (lines : list string) :
  Forall (fun l => Str.no_newline l = true) lines →
  Str.split Str.nl (unlines (String Str.nl EmptyString) lines)
  = lines ++ [EmptyString].
Proof.
  induction 1 as [|l rest Hl _ IH]; [done|].
  cbn [unlines]. rewrite sapp_cons, sapp_nil_l.
  by rewrite (split_line _ _ Hl), IH.
Qed.

(** X7.  Every name read from a text configuration is clean: not empty,
    without whitespace at either end, not starting with the comment sign,
    and with neither a line feed nor a carriage return inside.  Conversely,
    a file written with one clean name per line, with blank lines and
    comment lines anywhere between them and with any one of the three line
    ends (line feed, carriage return and line feed, carriage return), is
    read back as exactly these names, in order. *)
Theorem text_configuration_names (text : string) :
  (∀ name, name ∈ text_skills text → clean_name name)
  ∧ (∀ ending lines,
       line_end ending →
       Forall (fun l => clean_name l ∨ idle_line l) lines →
       text_skills (unlines ending lines) = filter clean_name lines).
Proof.
  split.
  - intros name. unfold text_skills.
    rewrite list_elem_of_filter, list_elem_of_fmap.
    intros [[Hne Hc] (line & -> & Hline)].
    split_and!; [done|done|apply strip_idem| |].
    + unfold Str.strip. apply no_newline_rstrip, no_newline_lstrip.
      by eapply split_no_newline.
    + unfold Str.strip, lacks. apply all_chars_rstrip, all_chars_lstrip.
      eapply all_chars_split; [|exact Hline].
      apply universal_newlines_lacks_cr.
  - intros ending lines Hend Hall. unfold text_skills.
    rewrite universal_newlines_unlines; [|done|]; cycle 1.
    { eapply Forall_impl; [exact Hall|].
      intros l [(_ & _ & _ & ? & ?)|(? & ? & _)]; done. }
    rewrite split_unlines; cycle 1.
    { eapply Forall_impl; [exact Hall|].
      intros l [(_ & _ & _ & ? & _)|[? _]]; done. }
    rewrite fmap_app, filter_app. cbn [fmap list_fmap].
    rewrite (filter_cons_False _ (Str.strip Str.is_space EmptyString)),
      filter_nil, app_nil_r by (by intros [? _]).
    induction Hall as [|l rest Hl _ IH]; [done|]. cbn [fmap list_fmap].
    destruct Hl as [Hclean|(Hnl & Hcr & Hidle)].
    + pose proof Hclean as (Hne & Hc & Hs & _).
      rewrite Hs, !filter_cons_True, IH; done.
    + rewrite !filter_cons_False, IH; [done| |].
      * intros (Hne & Hc & Hs & _). rewrite Hs in Hidle.
        destruct Hidle; congruence.
      * intros [Hne Hc]. destruct Hidle; congruence.
Qed.

(** A file with a comment, a blank line and two names, its lines ended by
    a carriage return and a line feed. *)
Lemma text_configuration_names_demo :
  text_skills
    (unlines (String Str.cr (String Str.nl EmptyString))
       ["# project skills"; "core"; "  "; "git-flow"])
  = ["core"; "git-flow"].
Proof.
  rewrite (proj2 (text_configuration_names EmptyString)
             (String Str.cr (String Str.nl EmptyString))
             ["# project skills"; "core"; "  "; "git-flow"]).
  - vm_compute. reflexivity.
  - right. by left.
  - repeat (apply Forall_cons; split); [| | | |by apply Forall_nil].
    + right. split_and!; [reflexivity|reflexivity|by right].
    + left. by repeat split.
    + right. split_and!; [reflexivity|reflexivity|by left].
    + left. by repeat split.
Defined.

(** A carriage return alone also ends a line. *)
Example carriage_return_ends_a_line :
  text_skills ("a" +:+ String Str.cr "b") = ["a"; "b"].
Proof. vm_compute. reflexivity. Qed.


(** * Further properties of the resolver *)

(** X8.  One call of the resolver, started without sets, returns the
    requirement closure of the skill: every documented name that can be
    reached from it, each once, and nothing else.  If the skill has a
    document it comes last; if it has none the call returns the empty list
    and prints nothing.  The call leaves nothing on the path, and what it
    marks as resolved is what it returned. *)
Theorem one_call_gives_the_closure (skills_dir : store)
    (skill_name : string) (all_skills : list string) :
  ∃ out st ev,
    resolve_skill_dependencies skills_dir (depth_bound skills_dir)
      skill_name all_skills fresh = Some (out, st, ev)
    ∧ NoDup out
    ∧ (∀ x, x ∈ out ↔
         x ∈ dom skills_dir ∧ rtc (requires skills_dir) skill_name x)
    ∧ (skill_name ∈ dom skills_dir → last out = Some skill_name)
    ∧ (skill_name ∉ dom skills_dir → out = [] ∧ ev = [])
    ∧ resolved st = list_to_set out
    ∧ resolving st = ∅.
Proof.
  destruct (resolve_fresh skills_dir all_skills skill_name)
    as (out & st & ev & Heq & Hok).
  exists out, st, ev.
  assert (Forall2 (fun skill o => ∃ st' ev1,
            call_ok skills_dir [skill] fresh o st' ev1 ∧ ev1 ⊆ ev)
            [skill_name] [out]) as Hexp.
  { constructor; [|constructor]. by exists st, ev. }
  pose proof Hok as (Ha & Hb & Hc & Hd & _).
  split_and!; [done|done| | | | |done].
  - intros x. split.
    + intros Hx. destruct (Hd x Hx) as (_ & _ & ? & r & Hr & ?).
      apply list_elem_of_singleton in Hr as ->. done.
    + intros [Hdom Hreach].
      pose proof (expanded_complete skills_dir ev [skill_name] [out]
                    skill_name x Hexp) as Hin.
      simpl in Hin. rewrite app_nil_r in Hin. apply Hin; [set_solver|done|done].
  - intros [content Hdoc]%elem_of_dom. unfold depth_bound in Heq.
    rewrite (resolve_documented _ _ _ content) in Heq
      by (done || apply not_elem_of_empty).
    destruct (resolve_each _ _ _) as [[[deps st2] ev2]|]; [|done].
    simplify_eq. apply last_snoc.
  - intros Hno%not_elem_of_dom. unfold depth_bound in Heq.
    rewrite resolve_missing in Heq by (done || apply not_elem_of_empty).
    by simplify_eq.
  - rewrite Hb. simpl. by rewrite union_empty_l_L.
Qed.

Lemma one_call_gives_the_closure_cyclic :
  ∃ out st ev,
    resolve_skill_dependencies cyclic_store (depth_bound cyclic_store)
      "c" [] fresh = Some (out, st, ev)
    ∧ NoDup out
    ∧ (∀ x, x ∈ out ↔ x ∈ dom cyclic_store ∧ rtc (requires cyclic_store) "c" x)
    ∧ ("c" ∈ dom cyclic_store → last out = Some "c")
    ∧ ("c" ∉ dom cyclic_store → out = [] ∧ ev = [])
    ∧ resolved st = list_to_set out
    ∧ resolving st = ∅.
Proof. apply (one_call_gives_the_closure cyclic_store "c" []). Defined.

(** X9.  Whatever sets a call of the resolver is given, it returns with the
    path as it found it, adds to the resolved names exactly the names it
    returns, and returns only names that have a document and were neither
    resolved nor on the path before, each once; so two sets that had no name
    in common still have none. *)
Theorem resolver_state_discipline (skills_dir : store) (fuel : nat)
    (skill_name : string) (all_skills : list string) (st st' : rstate)
    (out : list string) (ev : list diag) :
  resolve_skill_dependencies skills_dir fuel skill_name all_skills st
  = Some (out, st', ev) →
  resolving st' = resolving st
  ∧ resolved st' = resolved st ∪ list_to_set out
  ∧ NoDup out
  ∧ (∀ x, x ∈ out →
       x ∈ dom skills_dir ∧ (x ∉ resolved st) ∧ (x ∉ resolving st))
  ∧ (resolved st ## resolving st → resolved st' ## resolving st').
Proof.
  intros H. apply resolve_ok in H as (Ha & Hb & Hc & Hd & _).
  split_and!; [done|done|done| |].
  - intros x Hx. by destruct (Hd x Hx) as (? & ? & ? & _).
  - intros Hdisj. rewrite Ha, Hb. intros x Hx1 Hx2.
    apply elem_of_union in Hx1 as [Hx1|Hx1]; [by apply (Hdisj x)|].
    apply elem_of_list_to_set in Hx1. by destruct (Hd x Hx1) as (_ & ? & _).
Qed.

Lemma resolver_state_discipline_demo :
  ∃ out st' ev,
    resolve_skill_dependencies cyclic_store 5 "c" []
      (RState {["b"]} {["x"]}) = Some (out, st', ev)
    ∧ resolving st' = {["x"]}
    ∧ resolved st' = {["b"]} ∪ list_to_set out
    ∧ NoDup out
    ∧ (∀ x, x ∈ out →
         x ∈ dom cyclic_store ∧ (x ∉ ({["b"]} : gset string))
         ∧ (x ∉ ({["x"]} : gset string)))
    ∧ (({["b"]} : gset string) ## ({["x"]} : gset string) →
       resolved st' ## resolving st').
Proof.
  destruct (resolve_skill_dependencies cyclic_store 5 "c" []
              (RState {["b"]} {["x"]})) as [[[out st'] ev]|] eqn:H;
    [|vm_compute in H; discriminate].
  exists out, st', ev. split; [done|].
  apply (resolver_state_discipline cyclic_store 5 "c" []
           (RState {["b"]} {["x"]}) st' out ev H).
Defined.

(** ** Circular-dependency messages are about real cycles *)

Lemma resolve_each_cycles (skills_dir : store)
    (rec : string → rstate → answer) (reqs : list string) (R : gset string) :
  (∀ dep s out s' ev,
     dep ∈ reqs → resolving s = R → rec dep s = Some (out, s', ev) →
     resolving s' = R
     ∧ ∀ n, DiagCircular n ∈ ev → tc (requires skills_dir) n n) →
  ∀ s out s' ev,
    resolving s = R → resolve_each rec reqs s = Some (out, s', ev) →
    ∀ n, DiagCircular n ∈ ev → tc (requires skills_dir) n n.
Proof.
  induction reqs as [|dep rest IH]; intros Hrec s out s' ev Hs H n Hn;
    simpl in H.
  - simplify_eq. by apply elem_of_nil in Hn.
  - destruct (rec dep s) as [[[out1 st1] ev1]|] eqn:H1; [|done].
    destruct (resolve_each rec rest st1) as [[[out2 st2] ev2]|] eqn:H2;
      [|done].
    simplify_eq.
    destruct (Hrec dep s out1 st1 ev1) as [Hkeep Hsound];
      [set_solver|done|done|].
    apply elem_of_app in Hn as [Hn|Hn]; [by apply Hsound|].
    eapply (IH (fun d s0 o s0' e Hd => Hrec d s0 o s0' e
                  (list_elem_of_further _ _ _ Hd))); [|exact H2|exact Hn].
    done.
Qed.

Lemma resolve_cycles (skills_dir : store) (all_skills : list string)
    (fuel : nat) :
  ∀ skill_name st out st' ev,
    (∀ r, r ∈ resolving st → tc (requires skills_dir) r skill_name) →
    resolve_skill_dependencies skills_dir fuel skill_name all_skills st
    = Some (out, st', ev) →
    ∀ n, DiagCircular n ∈ ev → tc (requires skills_dir) n n.
Proof.
  induction fuel as [|fuel IH]; intros name st out st' ev Hpath H n Hn;
    [done|].
  rewrite resolve_unfold in H.
  destruct (decide (name ∈ resolved st)).
  { simplify_eq. by apply elem_of_nil in Hn. }
  destruct (decide (name ∈ resolving st)).
  { simplify_eq. apply list_elem_of_singleton in Hn. simplify_eq.
    by apply Hpath. }
  destruct (skills_dir !! name) as [content|] eqn:Hdoc; cycle 1.
  { simplify_eq. by apply elem_of_nil in Hn. }
  destruct (resolve_each _ _ _) as [[[deps st2] ev2]|] eqn:Hloop; [|done].
  simplify_eq.
  assert (requires skills_dir name = fun d => d ∈ requires_of content) as Hedges.
  { unfold requires, skill_requires. by rewrite Hdoc. }
  refine (resolve_each_cycles skills_dir _ (requires_of content)
            ({[name]} ∪ resolving st) _
            (RState (resolved st) ({[name]} ∪ resolving st))
            deps st2 ev eq_refl Hloop n Hn).
  intros dep s out' s' ev' Hdep Hs Hcall. split.
  - apply resolve_ok in Hcall as [Hkeep _]. congruence.
  - eapply IH; [|exact Hcall].
    assert (requires skills_dir name dep) as Hedge by (by rewrite Hedges).
    intros r. rewrite Hs. intros [->%elem_of_singleton|Hr]%elem_of_union.
    + by apply tc_once.
    + eapply tc_r; [by apply Hpath|done].
Qed.

Lemma resolve_all_cycles (skills_dir : store) (todo all_skills : list string) :
  ∀ acc acc' ev,
    resolve_all skills_dir todo all_skills acc = Some (acc', ev) →
    ∀ n, DiagCircular n ∈ ev → tc (requires skills_dir) n n.
Proof.
  induction todo as [|skill rest IH]; intros acc acc' ev H n Hn;
    cbn [resolve_all] in H.
  - simplify_eq. by apply elem_of_nil in Hn.
  - destruct (resolve_skill_dependencies _ _ skill _ _)
      as [[[out st] ev1]|] eqn:H1; [|done].
    destruct (resolve_all skills_dir rest all_skills _)
      as [[acc2 ev2]|] eqn:H2; [|done].
    simplify_eq. apply elem_of_app in Hn as [Hn|Hn].
    + eapply resolve_cycles; [|exact H1|exact Hn].
      by intros r ?%not_elem_of_empty.
    + by eapply IH.
Qed.

Lemma ordered_cycles_sound (skills_dir : store) (skills order : list string)
    (ev : list diag) :
  all_skills_ordered skills_dir skills = Some (order, ev) →
  ∀ d, d ∈ ev → ∃ n, d = DiagCircular n ∧ tc (requires skills_dir) n n.
Proof.
  intros Hord d Hd.
  destruct (all_skills_ordered_circular _ _ _ _ Hord d Hd) as [n ->].
  exists n. split; [done|].
  unfold all_skills_ordered in Hord.
  destruct (resolve_all skills_dir skills skills ([], ∅))
    as [[[o s] ev']|] eqn:Hall; [|done].
  simplify_eq. by eapply resolve_all_cycles.
Qed.


(** X10.  The resolver prints nothing but circular-dependency messages,
    and each of them names a skill that does require itself through a chain
    of documents; so on a store without such a chain the resolution prints
    nothing. *)
Theorem circular_messages_are_sound (skills_dir : store)
    (skills : list string) :
  ∃ order ev,
    all_skills_ordered skills_dir skills = Some (order, ev)
    ∧ (∀ d, d ∈ ev →
         ∃ n, d = DiagCircular n ∧ tc (requires skills_dir) n n)
    ∧ (acyclic skills_dir → ev = []).
Proof.
  destruct (all_skills_ordered_spec skills_dir skills)
    as (outs & ev & _ & Hord & _).
  exists (firsts ∅ (concat outs)), ev.
  pose proof (ordered_cycles_sound _ _ _ _ Hord) as Hsound.
  split_and!; [done|done|].
  intros Hacyclic. destruct ev as [|d ev]; [done|].
  destruct (Hsound d) as (n & _ & Hn); [set_solver|].
  by destruct (Hacyclic n).
Qed.

Lemma circular_messages_are_sound_scenario :
  ∃ order ev,
    all_skills_ordered scenario_store ["y"; "x"] = Some (order, ev)
    ∧ (∀ d, d ∈ ev →
         ∃ n, d = DiagCircular n ∧ tc (requires scenario_store) n n)
    ∧ (acyclic scenario_store → ev = []).
Proof. apply (circular_messages_are_sound scenario_store ["y"; "x"]). Defined.

(** ** The list of all skills is not looked at *)

Lemma resolve_each_ext (rec rec' : string → rstate → answer)
    (reqs : list string) :
  (∀ dep s, rec dep s = rec' dep s) →
  ∀ s, resolve_each rec reqs s = resolve_each rec' reqs s.
Proof.
  intros Hext. induction reqs as [|dep rest IH]; intros s; simpl; [done|].
  rewrite Hext. destruct (rec' dep s) as [[[out1 st1] ev1]|]; [|done].
  by rewrite IH.
Qed.

Lemma resolve_ignores_all_skills (skills_dir : store)
    (all_skills all_skills' : list string) (fuel : nat) :
  ∀ skill_name st,
    resolve_skill_dependencies skills_dir fuel skill_name all_skills st
    = resolve_skill_dependencies skills_dir fuel skill_name all_skills' st.
Proof.
  induction fuel as [|fuel IH]; intros name st; [done|].
  rewrite !resolve_unfold.
  destruct (decide (name ∈ resolved st)); [done|].
  destruct (decide (name ∈ resolving st)); [done|].
  destruct (skills_dir !! name) as [content|]; [|done].
  by rewrite (resolve_each_ext _ _ _ IH).
Qed.

(** X11.  The second argument of the resolver, the list of all configured
    skills, has no influence on what a call returns, leaves or prints. *)
Theorem all_skills_argument_unused (skills_dir : store) (fuel : nat)
    (skill_name : string) (all_skills all_skills' : list string)
    (st : rstate) :
  resolve_skill_dependencies skills_dir fuel skill_name all_skills st
  = resolve_skill_dependencies skills_dir fuel skill_name all_skills' st.
Proof. apply resolve_ignores_all_skills. Qed.


(** * Further properties of the assembler *)

(** X12.  The report describes the requirement closure of the configured
    list.  It names the project by its path as [pathlib] writes it and
    echoes the configuration; the loaded skills are, each once, exactly the
    documented names that can be reached from a configured name, cycles or
    not; and there is one record per loaded skill, in the same order, with
    its name, the path of its document as [pathlib] writes it, its parsed
    header and the length of its text. *)
Theorem report_describes_the_closure (SKILLS_DIR : string)
    (skills_dir : store) (project_path : string) (p : project) (o : options)
    (cfg : config) (r : report) (ev : list diag) :
  load_skills_config p = (Return (Some cfg), []) →
  load_skills_for_project SKILLS_DIR skills_dir project_path p o
  = Some (Return (RJsonReport r), ev) →
  rep_project r = Path.str (Path.of_string project_path)
  ∧ rep_configuration r = cfg
  ∧ NoDup (rep_loadedSkills r)
  ∧ (∀ x, x ∈ rep_loadedSkills r ↔
       x ∈ dom skills_dir
       ∧ ∃ top, top ∈ cfg_skills cfg ∧ rtc (requires skills_dir) top x)
  ∧ rep_skills r = info_of SKILLS_DIR skills_dir <$> rep_loadedSkills r.
Proof.
  intros Hcfg Hrun.
  destruct (run_cases SKILLS_DIR skills_dir project_path p o)
    as [(err & _ & H)|[(raw & _ & H)|[(_ & H)|[(cfg' & _ & _ & H)|
        (cfg' & order & evr & Hcfg' & _ & Hord & H)]]]];
    rewrite H in Hrun; try (destruct (opt_json o); by simplify_eq).
  assert (cfg' = cfg) as -> by congruence.
  destruct (opt_json o) eqn:Hjson; simplify_eq. simpl.
  destruct (order_members _ _ _ _ Hord) as [Hnd Hmem].
  split_and!; [done|done|done|done|].
  rewrite load_skills_metadata, Hjson; [done|].
  intros x Hx. by apply Hmem in Hx as [? _].
Qed.

(** A project path with a slash at its end and a skill named with a dot
    component in front: the report writes both paths without them. *)
Lemma report_describes_the_closure_dotted :
  ∃ r ev,
    load_skills_for_project home_skills
      (<["./real" := "Real body"]> ghost_store) "/p/"
      (Project None (Some "./real")) (Options true false)
    = Some (Return (RJsonReport r), ev)
    ∧ rep_project r = "/p"
    ∧ rep_loadedSkills r = ["./real"]
    ∧ rep_skills r
      = [SkillInfo "./real" "/home/u/.claude/skills/real.md" None 9]
    ∧ rep_skills r
      = info_of home_skills (<["./real" := "Real body"]> ghost_store)
          <$> rep_loadedSkills r.
Proof.
  exists (Report "/p" (Config ["./real"] FormatText None) ["./real"] []
            [SkillInfo "./real" "/home/u/.claude/skills/real.md" None 9]),
    [DiagLoaded ["./real"]].
  assert (load_skills_for_project home_skills
            (<["./real" := "Real body"]> ghost_store) "/p/"
            (Project None (Some "./real")) (Options true false)
          = Some (Return
                    (RJsonReport
                       (Report "/p" (Config ["./real"] FormatText None)
                          ["./real"] []
                          [SkillInfo "./real" "/home/u/.claude/skills/real.md"
                             None 9])),
                  [DiagLoaded ["./real"]])) as Hrun.
  { vm_compute. reflexivity. }
  destruct (report_describes_the_closure home_skills
              (<["./real" := "Real body"]> ghost_store) "/p/"
              (Project None (Some "./real")) (Options true false)
              (Config ["./real"] FormatText None) _ _ eq_refl Hrun)
    as (Hproject & _ & _ & _ & Hskills).
  split_and!; [exact Hrun|exact Hproject|reflexivity|reflexivity|exact Hskills].
Defined.

(** The same at the project that asks for a skill without a document. *)
Lemma missing_list_always_empty_ghost :
  (∀ r,
     Return
       (RJsonReport
          (Report "/p" (Config ["real"; "ghost"] FormatText None) ["real"] []
             [SkillInfo "real" "/home/u/.claude/skills/real.md" None 9]))
     = Return (RJsonReport r) →
     rep_missingSkills r = [])
  ∧ (∀ names, DiagMissing names ∉ [DiagLoaded ["real"]]).
Proof.
  apply (missing_list_always_empty home_skills ghost_store "/p" ghost_project
           (Options true false)).
  vm_compute. reflexivity.
Defined.

(** ** Appending to the configured list *)

Lemma resolve_all_unused (skills_dir : store)
    (todo all_skills all_skills' : list string) :
  ∀ acc,
    resolve_all skills_dir todo all_skills acc
    = resolve_all skills_dir todo all_skills' acc.
Proof.
  induction todo as [|skill rest IH]; intros acc; cbn [resolve_all]; [done|].
  rewrite (resolve_ignores_all_skills _ all_skills all_skills').
  destruct (resolve_skill_dependencies _ _ skill _ _)
    as [[[out st] ev]|]; [|done].
  by rewrite IH.
Qed.

Lemma expansions_unused (skills_dir : store)
    (todo all_skills all_skills' : list string) :
  expansions skills_dir todo all_skills
  = expansions skills_dir todo all_skills'.
Proof.
  induction todo as [|skill rest IH]; cbn [expansions]; [done|].
  rewrite (resolve_ignores_all_skills _ all_skills all_skills').
  destruct (resolve_skill_dependencies _ _ skill _ _)
    as [[[out st] ev]|]; [|done].
  by rewrite IH.
Qed.

Lemma resolve_all_app (skills_dir : store) (a b all_skills : list string) :
  ∀ acc,
    resolve_all skills_dir (a ++ b) all_skills acc
    = match resolve_all skills_dir a all_skills acc with
      | Some (acc1, ev1) =>
          match resolve_all skills_dir b all_skills acc1 with
          | Some (acc2, ev2) => Some (acc2, ev1 ++ ev2)
          | None => None
          end
      | None => None
      end.
Proof.
  induction a as [|skill rest IH]; intros acc; cbn [app resolve_all].
  - by destruct (resolve_all skills_dir b all_skills acc) as [[acc2 ev2]|].
  - destruct (resolve_skill_dependencies _ _ skill _ _)
      as [[[out st] ev]|]; [|done].
    rewrite IH.
    destruct (resolve_all skills_dir rest all_skills _)
      as [[acc1 ev1]|]; [|done].
    destruct (resolve_all skills_dir b all_skills acc1)
      as [[acc2 ev2]|]; [|done].
    by rewrite app_assoc.
Qed.

Lemma firsts_all_seen (seen : gset string) (l : list string) :
  (∀ x, x ∈ l → x ∈ seen) → firsts seen l = [].
Proof.
  induction l as [|x l IH]; intros H; simpl; [done|].
  rewrite decide_True by (apply H; set_solver). apply IH.
  intros y Hy. apply H. set_solver.
Qed.

Lemma expansion_of_member (skills_dir : store)
    (todo all_skills : list string) (outs : list (list string))
    (skill : string) :
  expansions skills_dir todo all_skills = Some outs → skill ∈ todo →
  ∃ out st ev,
    resolve_skill_dependencies skills_dir (depth_bound skills_dir)
      skill all_skills fresh = Some (out, st, ev)
    ∧ ∀ x, x ∈ out → x ∈ concat outs.
Proof.
  intros H%expansions_from_fresh Hin.
  induction H as [|s out rest outs' (st & ev & Hs) _ IH].
  - by apply elem_of_nil in Hin.
  - apply elem_of_cons in Hin as [->|Hin].
    + exists out, st, ev. split; [done|]. simpl. set_solver.
    + destruct (IH Hin) as (out' & st' & ev' & ? & Hsub).
      exists out', st', ev'. split; [done|]. simpl. set_solver.
Qed.

Lemma member_of_expansions (skills_dir : store)
    (todo all_skills : list string) (outs : list (list string)) (x : string) :
  expansions skills_dir todo all_skills = Some outs → x ∈ concat outs →
  ∃ skill out st ev,
    skill ∈ todo
    ∧ resolve_skill_dependencies skills_dir (depth_bound skills_dir)
        skill all_skills fresh = Some (out, st, ev)
    ∧ x ∈ out.
Proof.
  intros H%expansions_from_fresh.
  induction H as [|s out rest outs' (st & ev & Hs) _ IH]; simpl.
  - by intros ?%elem_of_nil.
  - intros [Hx|Hx]%elem_of_app.
    + exists s, out, st, ev. set_solver.
    + destruct (IH Hx) as (s' & out' & st' & ev' & ? & ? & ?).
      exists s', out', st', ev'. set_solver.
Qed.

(** X14.  Skills added at the end of the configured list only add to the end
    of the load order: the order and the messages for the longer list start
    with the order and the messages for the shorter one, and what is added
    is new.  Naming again a skill that the list already holds adds
    nothing. *)
Theorem appending_skills_appends_to_the_order (skills_dir : store)
    (a b : list string) :
  ∃ order ev extra ev',
    all_skills_ordered skills_dir a = Some (order, ev)
    ∧ all_skills_ordered skills_dir (a ++ b)
      = Some (order ++ extra, ev ++ ev')
    ∧ (∀ x, x ∈ extra → x ∉ order)
    ∧ ((∀ s, s ∈ b → s ∈ a) → extra = []).
Proof.
  destruct (resolve_all_spec skills_dir a a ([], ∅))
    as (outs_a & ev_a & Hexp_a & Hall_a & _).
  rewrite merge_seen_firsts in Hall_a. simpl in Hall_a.
  destruct (resolve_all_spec skills_dir b (a ++ b)
              (firsts ∅ (concat outs_a), list_to_set (concat outs_a) ∪ ∅))
    as (outs_b & ev_b & Hexp_b & Hall_b & _).
  rewrite merge_seen_firsts in Hall_b.
  exists (firsts ∅ (concat outs_a)), ev_a,
    (firsts (list_to_set (concat outs_a) ∪ ∅) (concat outs_b)), ev_b.
  split_and!.
  - unfold all_skills_ordered. by rewrite Hall_a.
  - unfold all_skills_ordered.
    rewrite resolve_all_app, (resolve_all_unused _ a (a ++ b) a), Hall_a,
      Hall_b. done.
  - intros x [_ Hx]%firsts_elem_of [Hx' _]%firsts_elem_of. set_solver.
  - intros Hsub. apply firsts_all_seen. intros x Hx.
    destruct (member_of_expansions _ _ _ _ _ Hexp_b Hx)
      as (s & out & st & ev & Hs & Hcall & Hin).
    destruct (expansion_of_member _ _ _ _ s Hexp_a (Hsub s Hs))
      as (out' & st' & ev' & Hcall' & Hall).
    rewrite (resolve_ignores_all_skills _ (a ++ b) a) in Hcall.
    rewrite Hcall' in Hcall. simplify_eq.
    apply elem_of_union. left. apply elem_of_list_to_set. by apply Hall.
Qed.

Lemma appending_skills_appends_to_the_order_demo :
  ∃ order ev extra ev',
    all_skills_ordered shared_store ["x"] = Some (order, ev)
    ∧ all_skills_ordered shared_store (["x"] ++ ["y"; "x"])
      = Some (order ++ extra, ev ++ ev')
    ∧ (∀ x, x ∈ extra → x ∉ order)
    ∧ ((∀ s, s ∈ ["y"; "x"] → s ∈ ["x"]) → extra = []).
Proof.
  apply (appending_skills_appends_to_the_order shared_store ["x"] ["y"; "x"]).
Defined.

(** ** What is still printed under [--silent] *)

(** X15.  With the silent option the only messages a run can still print
    are the parse error of a malformed configuration and the
    circular-dependency messages of the resolver, each about a skill that
    does require itself: the warnings about the configuration and the
    summary of loaded skills are suppressed, the cycle messages are not. *)
Theorem silent_keeps_the_cycle_messages (SKILLS_DIR : string)
    (skills_dir : store) (project_path : string) (p : project) (o : options)
    (out : outcome result) (ev : list diag) :
  opt_silent o = true →
  load_skills_for_project SKILLS_DIR skills_dir project_path p o
  = Some (out, ev) →
  ∀ d, d ∈ ev →
    (∃ err, d = DiagConfigError err ∧ out = Exit 1)
    ∨ (∃ n, d = DiagCircular n ∧ tc (requires skills_dir) n n).
Proof.
  intros Hsilent Hrun d Hd.
  destruct (run_cases SKILLS_DIR skills_dir project_path p o)
    as [(err & _ & H)|[(raw & _ & H)|[(_ & H)|[(cfg' & _ & _ & H)|
        (cfg' & order & evr & _ & _ & Hord & H)]]]];
    rewrite H in Hrun; simplify_eq.
  - apply list_elem_of_singleton in Hd as ->. left. by exists err.
  - by apply elem_of_nil in Hd.
  - unfold quiet in Hd. rewrite Hsilent in Hd. by apply elem_of_nil in Hd.
  - unfold quiet in Hd. rewrite Hsilent in Hd. by apply elem_of_nil in Hd.
  - rewrite Hsilent, app_nil_r in Hd. right.
    by eapply ordered_cycles_sound.
Qed.

Lemma silent_keeps_the_cycle_messages_cyclic :
  (∃ err, DiagCircular "a" = DiagConfigError err
          ∧ Return (RText ("B body" +:+ separator +:+ "A body")) = Exit 1)
  ∨ (∃ n, DiagCircular "a" = DiagCircular n ∧ tc (requires cyclic_store) n n).
Proof.
  apply (silent_keeps_the_cycle_messages home_skills cyclic_store "/p"
           (Project None (Some "a")) (Options false true)
           (Return (RText ("B body" +:+ separator +:+ "A body")))
           [DiagCircular "a"]).
  - reflexivity.
  - vm_compute. reflexivity.
  - by apply list_elem_of_singleton.
Defined.


(** * How errors propagate *)

(** C8 fails on the code, twice.  A project that asks only for [ghost], a
    skill without a document, gets an empty report, or the empty text, and
    no message at all: the missing skill is reported neither on stderr nor
    in the missing list, since the resolver has dropped it before the
    loading loop could record it.  And a structured configuration that
    parses to a list makes line 44 raise [AttributeError], which the
    handler of line 48 does not catch and which goes past the caller. *)
Theorem missing_skill_unreported_and_exception_uncaught :
  load_skills_for_project home_skills ghost_store "/p" ghost_only_project
    (Options true false)
  = Some (Return
            (RJsonReport
               (Report "/p" (Config ["ghost"] FormatText None) [] [] [])),
          [])
  ∧ load_skills_for_project home_skills ghost_store "/p" ghost_only_project
      (Options false false)
    = Some (Return (RText EmptyString), [])
  ∧ load_skills_for_project home_skills ghost_store "/p" list_config_project
      (Options false false)
    = Some (Raise AttributeError, []).
Proof. vm_compute. split_and!; reflexivity. Qed.




(** * Properties of the command line *)

Section ArgsFacts.

Variable abspath : string → string.

Lemma parse_args_benign (args : list string) :
  ∀ o project_path,
    Forall is_benign args →
    parse_args abspath args o project_path
    = ArgsParsed
        (Options (opt_json o || bool_decide ("--json" ∈ args))
                 (opt_silent o || bool_decide ("--silent" ∈ args)))
        (match last (filter is_positional args) with
         | Some arg => Some (abspath arg)
         | None => project_path
         end).
Proof.
  induction args as [|arg rest IH]; intros o path Hall.
  - cbn [parse_args]. destruct o. simpl. by rewrite !orb_false_r.
  - apply Forall_cons in Hall as [[Hnh Hkind] Hall]. cbn [parse_args].
    rewrite (bool_decide_eq_false_2 _ Hnh).
    destruct (decide (arg = "--json")) as [->|Hj].
    { rewrite bool_decide_eq_true_2 by done. rewrite (IH _ _ Hall).
      rewrite filter_cons_False by done. cbn [opt_json opt_silent].
      f_equal. f_equal.
      - rewrite (bool_decide_eq_true_2 ("--json" ∈ "--json" :: rest))
          by set_solver.
        by rewrite orb_true_r.
      - f_equal. apply bool_decide_ext. set_solver. }
    rewrite (bool_decide_eq_false_2 _ Hj).
    destruct (decide (arg = "--silent")) as [->|Hs].
    { rewrite bool_decide_eq_true_2 by done. rewrite (IH _ _ Hall).
      rewrite filter_cons_False by done. cbn [opt_json opt_silent].
      f_equal. f_equal.
      - f_equal. apply bool_decide_ext. set_solver.
      - rewrite (bool_decide_eq_true_2 ("--silent" ∈ "--silent" :: rest))
          by set_solver.
        by rewrite orb_true_r. }
    rewrite (bool_decide_eq_false_2 _ Hs).
    destruct Hkind as [[?|?]|Hpos]; [done|done|].
    unfold is_positional in Hpos. rewrite Hpos. cbn [negb].
    rewrite (IH _ _ Hall), filter_cons_True by done. rewrite last_cons.
    f_equal.
    + f_equal; f_equal; apply bool_decide_ext; set_solver.
    + by destruct (last (filter is_positional rest)).
Qed.

(** X16.  When every argument is one of the two flags or a path, the two
    options are on exactly when their flag occurs somewhere, however often
    and in whatever order, and the project is the absolute path of the last
    argument that does not start with a dash, or none. *)
Theorem arguments_are_read_as_a_set_of_flags_and_a_last_path
    (args : list string) :
  Forall is_benign args →
  parse_args abspath args (Options false false) None
  = ArgsParsed
      (Options (bool_decide ("--json" ∈ args))
               (bool_decide ("--silent" ∈ args)))
      (abspath <$> last (filter is_positional args)).
Proof.
  intros Hall. rewrite parse_args_benign by done.
  by destruct (last (filter is_positional args)).
Qed.

Lemma parse_args_decisive (pre : list string) (arg : string)
    (rest : list string) :
  ∀ o project_path,
    Forall is_benign pre →
    (is_help arg →
     parse_args abspath (pre ++ arg :: rest) o project_path = ArgsHelp)
    ∧ (is_unknown arg →
       parse_args abspath (pre ++ arg :: rest) o project_path
       = ArgsUnknown arg).
Proof.
  induction pre as [|x pre IH]; intros o path Hall.
  - cbn [app parse_args]. split.
    + intros Hh. by rewrite bool_decide_eq_true_2.
    + intros (Hnh & Hnf & Hdash).
      rewrite (bool_decide_eq_false_2 _ Hnh).
      rewrite (bool_decide_eq_false_2 (arg = "--json"))
        by (intros ?; apply Hnf; by left).
      rewrite (bool_decide_eq_false_2 (arg = "--silent"))
        by (intros ?; apply Hnf; by right).
      by rewrite Hdash.
  - apply Forall_cons in Hall as [[Hnh Hkind] Hall]. cbn [app parse_args].
    rewrite (bool_decide_eq_false_2 _ Hnh).
    repeat case_bool_decide; try apply IH; try done.
    destruct Hkind as [[?|?]|Hpos]; [done|done|].
    unfold is_positional in Hpos. rewrite Hpos. apply IH. done.
Qed.

End ArgsFacts.

Section MainFacts.

Variable SKILLS_DIR : string.
Variable skills_dir : store.
Variable cwd : string.
Variable abspath : string → string.
Variable projects : string → project.

(** X17.  The first argument that asks for help or is an unknown option
    decides, whatever follows it: help prints the usage and exits with
    status 0, an unknown option prints a complaint and the usage and exits
    with status 1, and in both cases no project is looked at. *)
Theorem first_help_or_unknown_option_decides (pre : list string)
    (arg : string) (rest : list string) :
  Forall is_benign pre →
  (is_help arg →
   main SKILLS_DIR skills_dir cwd abspath projects (pre ++ arg :: rest)
   = Some (RunResult (Some 0%Z) [OutUsage] []))
  ∧ (is_unknown arg →
     main SKILLS_DIR skills_dir cwd abspath projects (pre ++ arg :: rest)
     = Some (RunResult (Some 1%Z) [OutUsage] [ErrUnknownOption arg])).
Proof.
  intros Hall. unfold main.
  destruct (parse_args_decisive abspath pre arg rest (Options false false)
              None Hall) as [Hh Hu].
  split; intros H; [by rewrite (Hh H)|by rewrite (Hu H)].
Qed.

Lemma main_ends (args : list string) :
  Forall is_benign args →
  let o := Options (bool_decide ("--json" ∈ args))
                   (bool_decide ("--silent" ∈ args)) in
  let path :=
    default cwd (abspath <$> last (filter is_positional args)) in
  ∃ out ev rr,
    load_skills_for_project SKILLS_DIR skills_dir path (projects path) o
    = Some (out, ev)
    ∧ main SKILLS_DIR skills_dir cwd abspath projects args = Some rr
    ∧ stderr rr = ErrDiag <$> ev
    ∧ (∀ code, out = Exit code → exit_code rr = Some code ∧ stdout rr = [])
    ∧ (∀ r, out = Return r → opt_json o = true →
         exit_code rr = None ∧ stdout rr = [OutResult r]
         ∧ ∀ text, r ≠ RText text)
    ∧ (∀ r, out = Return r → opt_json o = false →
         ∃ text, r = RText text
           ∧ (text ≠ EmptyString →
              exit_code rr = None ∧ stdout rr = [OutResult r])
           ∧ (text = EmptyString →
              stdout rr = []
              ∧ exit_code rr = if opt_silent o then None else Some 1%Z)).
Proof.
  intros Hall o path. unfold main.
  rewrite parse_args_benign by done. cbn [opt_json opt_silent orb].
  assert (match last (filter is_positional args) with
          | Some arg => Some (abspath arg)
          | None => None
          end = abspath <$> last (filter is_positional args)) as ->.
  { by destruct (last (filter is_positional args)). }
  fold o. fold path.
  assert (Hjson_case : ∀ (r : result) ev,
    (∀ text, r ≠ RText text) →
    load_skills_for_project SKILLS_DIR skills_dir path (projects path) o
    = Some (Return r, ev) →
    opt_json o = true →
    ∃ out ev' rr,
      Some (Return r, ev) = Some (out, ev')
      ∧ (if result_truthy r
         then Some (RunResult None [OutResult r] (ErrDiag <$> ev))
         else if opt_silent o then Some (RunResult None [] (ErrDiag <$> ev))
              else Some (RunResult (Some 1%Z) [] (ErrDiag <$> ev))) = Some rr
      ∧ stderr rr = ErrDiag <$> ev'
      ∧ (∀ code, out = Exit code → exit_code rr = Some code ∧ stdout rr = [])
      ∧ (∀ r', out = Return r' → opt_json o = true →
           exit_code rr = None ∧ stdout rr = [OutResult r']
           ∧ ∀ text, r' ≠ RText text)
      ∧ (∀ r', out = Return r' → opt_json o = false →
           ∃ text, r' = RText text
             ∧ (text ≠ EmptyString →
                exit_code rr = None ∧ stdout rr = [OutResult r'])
             ∧ (text = EmptyString →
                stdout rr = []
                ∧ exit_code rr = if opt_silent o then None else Some 1%Z))).
  { intros r ev Hr _ Hjson.
    assert (result_truthy r = true) as ->.
    { destruct r as [[|]| |]; try done. by destruct (Hr EmptyString). }
    eexists _, _, _. split_and!; [reflexivity|reflexivity|done| | |].
    - intros code Hc. discriminate Hc.
    - intros r' Hr' _. injection Hr' as <-. by split_and!.
    - intros r' _ Hno. congruence. }
  assert (Htext_case : ∀ (text : string) ev,
    load_skills_for_project SKILLS_DIR skills_dir path (projects path) o
    = Some (Return (RText text), ev) →
    opt_json o = false →
    ∃ out ev' rr,
      Some (Return (RText text), ev) = Some (out, ev')
      ∧ (if result_truthy (RText text)
         then Some (RunResult None [OutResult (RText text)] (ErrDiag <$> ev))
         else if opt_silent o then Some (RunResult None [] (ErrDiag <$> ev))
              else Some (RunResult (Some 1%Z) [] (ErrDiag <$> ev))) = Some rr
      ∧ stderr rr = ErrDiag <$> ev'
      ∧ (∀ code, out = Exit code → exit_code rr = Some code ∧ stdout rr = [])
      ∧ (∀ r', out = Return r' → opt_json o = true →
           exit_code rr = None ∧ stdout rr = [OutResult r']
           ∧ ∀ text, r' ≠ RText text)
      ∧ (∀ r', out = Return r' → opt_json o = false →
           ∃ text, r' = RText text
             ∧ (text ≠ EmptyString →
                exit_code rr = None ∧ stdout rr = [OutResult r'])
             ∧ (text = EmptyString →
                stdout rr = []
                ∧ exit_code rr = if opt_silent o then None else Some 1%Z))).
  { intros text ev _ Hjson. destruct text as [|c text]; cbn [result_truthy].
    - destruct (opt_silent o);
        (eexists _, _, _; split_and!; [reflexivity|reflexivity|done| | |];
         [intros code Hc; discriminate Hc
         |intros r' _ Hyes; congruence
         |intros r' Hr' _; injection Hr' as <-; exists EmptyString;
          by split_and!]).
    - eexists _, _, _. split_and!; [reflexivity|reflexivity|done| | |].
      + intros code Hc. discriminate Hc.
      + intros r' _ Hyes. congruence.
      + intros r' Hr' _. injection Hr' as <-. exists (String c text).
        split_and!; [done|done|done]. }
  destruct (run_cases SKILLS_DIR skills_dir path (projects path) o)
    as [(err & _ & H)|[(raw & _ & H)|[(_ & H)|[(cfg' & _ & _ & H)|
        (cfg' & order & evr & _ & _ & _ & H)]]]];
    rewrite H.
  - eexists _, _, _. split_and!; [reflexivity|reflexivity|done| | |].
    + intros code Hc. injection Hc as <-. done.
    + intros r Hr. discriminate Hr.
    + intros r Hr. discriminate Hr.
  - eexists _, _, _. split_and!; [reflexivity|reflexivity|done| | |].
    + intros code Hc. discriminate Hc.
    + intros r Hr. discriminate Hr.
    + intros r Hr. discriminate Hr.
  - destruct (opt_json o) eqn:Hjson.
    + rewrite ?Hjson in H. by apply Hjson_case.
    + rewrite ?Hjson in H. by apply Htext_case.
  - destruct (opt_json o) eqn:Hjson.
    + rewrite ?Hjson in H. by apply Hjson_case.
    + rewrite ?Hjson in H. by apply Htext_case.
  - destruct (opt_json o) eqn:Hjson.
    + rewrite ?Hjson in H. by apply Hjson_case.
    + rewrite ?Hjson in H. by apply Htext_case.
Qed.

(** X18.  How [main] ends when the arguments are flags and paths.  It
    prints on stderr what the run printed.  If the configuration is
    malformed it exits with that status and prints nothing on stdout.  When
    the run returns a result, then with [--json] it always prints one
    object and returns, also when no configuration or no skill was found,
    and without [--json] it prints the text and returns when the text is
    not empty; when it is empty it prints nothing and exits with status 1,
    unless silenced.  An exception that leaves the run leaves [main] as
    well, with nothing printed on stdout. *)
Theorem main_exit_status (args : list string) :
  Forall is_benign args →
  let o := Options (bool_decide ("--json" ∈ args))
                   (bool_decide ("--silent" ∈ args)) in
  let path :=
    default cwd (abspath <$> last (filter is_positional args)) in
  ∃ out ev rr,
    load_skills_for_project SKILLS_DIR skills_dir path (projects path) o
    = Some (out, ev)
    ∧ main SKILLS_DIR skills_dir cwd abspath projects args = Some rr
    ∧ stderr rr = ErrDiag <$> ev
    ∧ (∀ code, out = Exit code → exit_code rr = Some code ∧ stdout rr = [])
    ∧ (∀ r, out = Return r → opt_json o = true →
         exit_code rr = None ∧ stdout rr = [OutResult r]
         ∧ ∀ text, r ≠ RText text)
    ∧ (∀ r, out = Return r → opt_json o = false →
         ∃ text, r = RText text
           ∧ (text ≠ EmptyString →
              exit_code rr = None ∧ stdout rr = [OutResult r])
           ∧ (text = EmptyString →
              stdout rr = []
              ∧ exit_code rr = if opt_silent o then None else Some 1%Z))
    ∧ (∀ e, out = Raise e →
         exit_code rr = None ∧ stdout rr = [] ∧ uncaught rr = Some e).
Proof.
  intros Hall o path.
  destruct (main_ends args Hall)
    as (out & ev & rr & Hrun & Hmain & Herr & Hexit & Hjson & Htext).
  exists out, ev, rr. split_and!; [done|done|done|done|done|done|].
  intros e ->. unfold main in Hmain.
  rewrite parse_args_benign in Hmain by done.
  cbn [opt_json opt_silent orb] in Hmain.
  assert (match last (filter is_positional args) with
          | Some arg => Some (abspath arg)
          | None => None
          end = abspath <$> last (filter is_positional args)) as Hlast.
  { by destruct (last (filter is_positional args)). }
  rewrite Hlast in Hmain. fold o in Hmain. fold path in Hmain.
  fold o path in Hrun. rewrite Hrun in Hmain. by simplify_eq.
Qed.

End MainFacts.

(** Arguments given one by one are all flags or paths. *)
Ltac all_benign :=
  repeat (apply Forall_cons; split); try (by apply Forall_nil);
  unfold is_benign, is_help, is_flag, is_positional;
  (split;
   [ let H := fresh in intros [H|H]; discriminate H
   | first [ right; reflexivity
           | left; left; reflexivity
           | left; right; reflexivity ] ]).

Lemma arguments_are_read_as_a_set_of_flags_and_a_last_path_demo :
  parse_args (fun arg => "/abs/" +:+ arg)
    ["first"; "--silent"; "second"; "--json"; "--silent"]
    (Options false false) None
  = ArgsParsed
      (Options
         (bool_decide
            ("--json" ∈ ["first"; "--silent"; "second"; "--json"; "--silent"]))
         (bool_decide
            ("--silent"
               ∈ ["first"; "--silent"; "second"; "--json"; "--silent"])))
      ((fun arg => "/abs/" +:+ arg)
         <$> last (filter is_positional
                     ["first"; "--silent"; "second"; "--json"; "--silent"])).
Proof.
  apply (arguments_are_read_as_a_set_of_flags_and_a_last_path
           (fun arg => "/abs/" +:+ arg)
           ["first"; "--silent"; "second"; "--json"; "--silent"]).
  all_benign.
Defined.

Lemma first_help_or_unknown_option_decides_demo :
  main home_skills ghost_store "/cwd" (fun arg => arg) example_projects
    (["--json"; "/ghost"] ++ "--verbose" :: ["--help"])
  = Some (RunResult (Some 1%Z) [OutUsage] [ErrUnknownOption "--verbose"]).
Proof.
  apply (first_help_or_unknown_option_decides home_skills ghost_store "/cwd"
           (fun arg => arg) example_projects ["--json"; "/ghost"] "--verbose"
           ["--help"]).
  - all_benign.
  - unfold is_unknown, is_help, is_flag.
    split_and!; [intros [H|H]; discriminate H|intros [H|H]; discriminate H|].
    reflexivity.
Defined.

Lemma main_exit_status_demo :
  let args := ["--json"; "/nowhere"] in
  let o := Options (bool_decide ("--json" ∈ args))
                   (bool_decide ("--silent" ∈ args)) in
  let path :=
    default "/cwd" ((fun arg => arg) <$> last (filter is_positional args)) in
  ∃ out ev rr,
    load_skills_for_project home_skills ghost_store path
      (example_projects path) o
    = Some (out, ev)
    ∧ main home_skills ghost_store "/cwd" (fun arg => arg) example_projects
        args = Some rr
    ∧ stderr rr = ErrDiag <$> ev
    ∧ (∀ code, out = Exit code → exit_code rr = Some code ∧ stdout rr = [])
    ∧ (∀ r, out = Return r → opt_json o = true →
         exit_code rr = None ∧ stdout rr = [OutResult r]
         ∧ ∀ text, r ≠ RText text)
    ∧ (∀ r, out = Return r → opt_json o = false →
         ∃ text, r = RText text
           ∧ (text ≠ EmptyString →
              exit_code rr = None ∧ stdout rr = [OutResult r])
           ∧ (text = EmptyString →
              stdout rr = []
              ∧ exit_code rr = if opt_silent o then None else Some 1%Z))
    ∧ (∀ e, out = Raise e →
         exit_code rr = None ∧ stdout rr = [] ∧ uncaught rr = Some e).
Proof.
  apply (main_exit_status home_skills ghost_store "/cwd" (fun arg => arg)
           example_projects ["--json"; "/nowhere"]).
  all_benign.
Defined.

(** Without a configuration, [--json] prints an error object and returns,
    while the plain run prints a warning and exits with status 1. *)
Example no_configuration_runs :
  main home_skills ghost_store "/cwd" (fun arg => arg) example_projects
    ["--json"; "/nowhere"]
  = Some (RunResult None [OutResult (RJsonError "No skills configuration found")]
            [ErrDiag DiagNoConfig])
  ∧ main home_skills ghost_store "/cwd" (fun arg => arg) example_projects
      ["/nowhere"]
    = Some (RunResult (Some 1%Z) [] [ErrDiag DiagNoConfig]).
Proof. vm_compute. split; reflexivity. Qed.

(** A structured configuration that holds a list: the exception leaves
    [main], whatever the options, and nothing is printed. *)
Example list_configuration_raises :
  main home_skills ghost_store "/cwd" (fun arg => arg) example_projects
    ["--silent"; "--json"; "/list"]
  = Some (RunEnd None [] [] (Some AttributeError)).
Proof. vm_compute. reflexivity. Qed.
